(** * Message framing over byte streams: a verified model of package [framed]

    Two framings live in the repository:

    - the sectioned framing (types [Framed], [Frame], [FrameSection]):
      every frame carries a header and a body, each announced by a 16-bit
      little-endian length prefix;
    - the single-section framing (types [Reader], [Writer]): one 16-bit
      little-endian length prefix followed by the payload.

    The development embeds the Go functions as Rocq functions over
    explicit state.  The underlying connection is a script of events on
    the reading side (chunks of bytes, transport faults, and chunks whose
    last byte comes with a fault) and a log of bytes plus a script of
    write outcomes on the writing side.  *)

From Stdlib Require Import Bool String Arith ZArith Lia List.
From Stdlib.Strings Require Import Byte.
Import ListNotations.
Open Scope Z_scope.

(** ** Errors and outcomes *)

(** The error values the code can produce or pass on.  [Transport] stands
    for any failure of the underlying connection other than end of
    stream; [Errorf] keeps the format string and its integer arguments. *)
Inductive error : Type :=
| EOF
| ErrUnexpectedEOF
| ErrShortWrite
| AlreadyReadError (msg : string)
| Errorf (fmt : string) (args : list Z)
| Transport (code : nat).

(** Outcome of running a piece of code: it returns, it panics (a slice
    expression out of range), or the loop budget of the model ran out. *)
Inductive res (A : Type) : Type :=
| Done (a : A)
| Panic
| OutOfFuel.
Arguments Done {A} a.
Arguments Panic {A}.
Arguments OutOfFuel {A}.

Definition bind {A B : Type} (m : res A) (k : A -> res B) : res B :=
  match m with
  | Done a => k a
  | Panic => Panic
  | OutOfFuel => OutOfFuel
  end.

Notation "'do' x <- m ; k" := (bind m (fun x => k))
  (at level 10, x pattern, m at level 100, k at level 200).

(** [len] is Go's [len] on a slice, as an [int]. *)
Definition len {A : Type} (l : list A) : Z := Z.of_nat (length l).

(** ** Fixed-width integers and the little-endian codec *)
Module Wire.

(** Conversion of an [int] to [int16]: the low 16 bits, read as a
    two's complement number. *)
Definition int16 (z : Z) : Z := (z + 32768) mod 65536 - 32768.

(** Conversion to [uint16]: the low 16 bits. *)
Definition uint16 (z : Z) : Z := z mod 65536.

Definition byte_of_Z (z : Z) : byte :=
  match Byte.of_N (Z.to_N (z mod 256)) with
  | Some b => b
  | None => x00
  end.

Definition Z_of_byte (b : byte) : Z := Z.of_N (Byte.to_N b).

(** [binary.LittleEndian.PutUint16]: least significant byte first. *)
Definition PutUint16 (v : Z) : list byte :=
  [byte_of_Z v; byte_of_Z (Z.shiftr v 8)].

(** [binary.LittleEndian.Uint16] on a two-byte buffer. *)
Definition Uint16 (b0 b1 : byte) : Z :=
  Z.lor (Z_of_byte b0) (Z.shiftl (Z_of_byte b1) 8).

(** What [binary.Write] puts on the wire for an [int16] or a [uint16]
    value: the value is converted to [uint16] and encoded. *)
Definition encode16 (v : Z) : list byte := PutUint16 (uint16 v).

End Wire.

(** ** The underlying connection *)
Module Stream.

(** Reading side.  Each [Read] call on the connection meets the next
    event: a chunk of bytes that arrived together, a transport fault,
    or a chunk whose last byte comes with a transport fault, as
    [io.Reader] allows a [Read] to return [n > 0] and an error at once.
    When the script is over the connection is at end of stream, for
    good. *)
Inductive event : Type :=
| Data (bs : list byte)
| Fault (code : nat)
| DataFault (bs : list byte) (code : nat).

Definition rstream := list event.

(** [Read(p)] with [len(p) = k]: at most [k] bytes of the next chunk.
    The fault of a [DataFault] chunk is reported by the [Read] that
    delivers the chunk's last byte. *)
Definition sread (k : nat) (s : rstream)
  : list byte * option error * rstream :=
  match s with
  | [] => ([], Some EOF, [])
  | Fault c :: s' => ([], Some (Transport c), s')
  | Data bs :: s' =>
      if (length bs <=? k)%nat then (bs, None, s')
      else (firstn k bs, None, Data (skipn k bs) :: s')
  | DataFault bs c :: s' =>
      if (length bs <=? k)%nat then (bs, Some (Transport c), s')
      else (firstn k bs, None, DataFault (skipn k bs) c :: s')
  end.

(** Writing side.  The bytes accepted so far, and the outcome of the
    coming [Write] calls: accept the whole slice, or take only the
    first [n] bytes and fail. *)
Inductive wevent : Type :=
| Accept
| Reject (n : nat) (code : nat).

Record wstream : Type := mkW { wout : list byte; wplan : list wevent }.

Definition swrite (p : list byte) (w : wstream)
  : Z * option error * wstream :=
  match wplan w with
  | [] => (len p, None, mkW (wout w ++ p) [])
  | Accept :: t => (len p, None, mkW (wout w ++ p) t)
  | Reject n c :: t =>
      (len (firstn n p), Some (Transport c), mkW (wout w ++ firstn n p) t)
  end.

(** A writer that accepts everything. *)
Definition sink : wstream := mkW [] [].

(** The bytes a faultless reader will deliver, in order. *)
Fixpoint content (s : rstream) : list byte :=
  match s with
  | [] => []
  | Data bs :: s' => bs ++ content s'
  | Fault _ :: s' => content s'
  | DataFault bs _ :: s' => bs ++ content s'
  end.

Fixpoint faultless (s : rstream) : bool :=
  match s with
  | [] => true
  | Data _ :: s' => faultless s'
  | Fault _ :: _ => false
  | DataFault _ _ :: _ => false
  end.

(** Reading exactly [n] bytes, whatever the buffer sizes used: the
    bytes obtained, the first failure met if the bytes could not all be
    had, and the script left.  A fault that comes with the last of the
    [n] bytes is not a failure to have them: [io.ReadFull], [io.CopyN]
    and [FrameSection.Read] all three drop the error of a [Read] that
    completes the count. *)
Fixpoint pull (s : rstream) (n : nat) {struct s}
  : list byte * option error * rstream :=
  match n with
  | O => ([], None, s)
  | S _ =>
      match s with
      | [] => ([], Some EOF, [])
      | Fault c :: s' => ([], Some (Transport c), s')
      | Data bs :: s' =>
          if (length bs <=? n)%nat then
            let '(r, e, s'') := pull s' (n - length bs) in
            (bs ++ r, e, s'')
          else (firstn n bs, None, Data (skipn n bs) :: s')
      | DataFault bs c :: s' =>
          if (length bs <? n)%nat then (bs, Some (Transport c), s')
          else if (length bs =? n)%nat then (bs, None, s')
          else (firstn n bs, None, DataFault (skipn n bs) c :: s')
      end
  end.

End Stream.

(** ** The Go library functions the package calls *)
Module GoIO.
Import Stream.

Definition is_nil (e : option error) : bool :=
  match e with None => true | Some _ => false end.

Definition is_EOF (e : option error) : bool :=
  match e with Some EOF => true | _ => false end.

(** The loop of [io.ReadAtLeast(r, buf, min)] on the connection, with
    [min = len(buf)]: [got] is the filled part of the buffer. *)
Fixpoint ReadAtLeast_loop (fuel : nat) (min : nat) (got : list byte)
         (err : option error) (s : rstream)
  : res (list byte * option error * rstream) :=
  if (length got <? min)%nat && is_nil err then
    match fuel with
    | O => OutOfFuel
    | S fuel' =>
        let '(bs, e, s') := sread (min - length got) s in
        ReadAtLeast_loop fuel' min (got ++ bs) e s'
    end
  else Done (got, err, s).

(** [io.ReadFull(r, buf)] with [len(buf) = n].  Every turn of the loop
    uses up an event of the script or fills at least one byte, which
    bounds the number of turns. *)
Definition ReadFull (n : nat) (s : rstream)
  : res (list byte * option error * rstream) :=
  do (got, err, s') <- ReadAtLeast_loop (n + length s + 1) n [] None s;
  let err' :=
    if (n <=? length got)%nat then None
    else if (0 <? length got)%nat && is_EOF err then Some ErrUnexpectedEOF
    else err in
  Done (got, err', s').

(** [binary.Read(r, order, &v)] for a 16-bit [v]: two bytes are read in
    full and decoded; on failure [v] keeps its value.  The result is
    the unsigned 16-bit number on the wire, the caller's conversion to
    the type of [v] is applied by [conv]. *)
Definition binary_Read16 (conv : Z -> Z) (s : rstream)
  : res (option Z * option error * rstream) :=
  do (got, err, s') <- ReadFull 2 s;
  match err with
  | Some e => Done (None, Some e, s')
  | None =>
      Done (Some (conv (Wire.Uint16 (nth 0 got x00) (nth 1 got x00))),
            None, s')
  end.

(** [binary.Write(w, order, v)] for a 16-bit [v]: one [Write] of the
    two encoded bytes. *)
Definition binary_Write16 (v : Z) (w : wstream) : option error * wstream :=
  let '(_, e, w') := swrite (Wire.encode16 v) w in (e, w').

(** The loop shared by [io.Copy(ioutil.Discard, r)] and
    [ioutil.ReadAll(r)]: call [r.Read] with [p] bytes of room until it
    reports an error; end of stream is success.  [acc] is what was
    read so far. *)
Fixpoint readUntilError {St : Type} (fuel : nat) (p : nat)
         (read : nat -> St -> res (list byte * option error * St))
         (acc : list byte) (st : St)
  : res (list byte * option error * St) :=
  match fuel with
  | O => OutOfFuel
  | S fuel' =>
      do (bs, e, st') <- read p st;
      match e with
      | None => readUntilError fuel' p read (acc ++ bs) st'
      | Some EOF => Done (acc ++ bs, None, st')
      | Some err => Done (acc ++ bs, Some err, st')
      end
  end.

(** [io.Copy(ioutil.Discard, r)]; the discard buffer holds 8192
    bytes and what is read is dropped. *)
Definition discardBuffer : nat := Z.to_nat 8192.

Definition copyDiscard {St : Type} (fuel : nat)
           (read : nat -> St -> res (list byte * option error * St))
           (st : St) : res (option error * St) :=
  do (_, e, st') <- readUntilError fuel discardBuffer read [] st;
  Done (e, st').

(** [ioutil.ReadAll(r)], the reader being asked for [p] bytes at a
    time. *)
Definition ReadAll {St : Type} (fuel : nat) (p : nat)
           (read : nat -> St -> res (list byte * option error * St))
           (st : St) : res (list byte * option error * St) :=
  readUntilError fuel p read [] st.

(** [io.LimitedReader.Read] on the connection, [N] bytes left. *)
Definition limitedRead (k : nat) (N : Z) (s : rstream)
  : list byte * option error * (Z * rstream) :=
  if N <=? 0 then ([], Some EOF, (N, s))
  else
    let k' := if Z.of_nat k >? N then Z.to_nat N else k in
    let '(bs, e, s') := sread k' s in
    (bs, e, (N - len bs, s')).

(** The loop of [io.Copy(dst, src)] for [src] a limited reader. *)
Fixpoint copyLoop (fuel : nat) (size : nat) (N : Z) (s : rstream)
         (dst : wstream) (written : Z)
  : res (Z * option error * rstream * wstream) :=
  match fuel with
  | O => OutOfFuel
  | S fuel' =>
      let '(bs, er, (N', s')) := limitedRead size N s in
      let after (written' : Z) (dst' : wstream) :=
        match er with
        | None => copyLoop fuel' size N' s' dst' written'
        | Some EOF => Done (written', None, s', dst')
        | Some e => Done (written', Some e, s', dst')
        end in
      if 0 <? len bs then
        let '(nw, ew, dst') := swrite bs dst in
        let written' := written + nw in
        match ew with
        | Some e => Done (written', Some e, s', dst')
        | None =>
            if negb (len bs =? nw) then
              Done (written', Some ErrShortWrite, s', dst')
            else after written' dst'
        end
      else after written dst
  end.

(** [io.CopyN(dst, src, n)]. *)
Definition CopyN (dst : wstream) (s : rstream) (n : Z)
  : res (Z * option error * rstream * wstream) :=
  let size :=
    if n <? 32768 then (if n <? 1 then 1%nat else Z.to_nat n)
    else Z.to_nat 32768 in
  do (written, err, s', dst') <-
     copyLoop (Z.to_nat n + length s + 2) size n s dst 0;
  if written =? n then Done (n, None, s', dst')
  else if (written <? n) && is_nil err then Done (written, Some EOF, s', dst')
  else Done (written, err, s', dst').

End GoIO.

(** ** The sectioned framing *)
Module Sectioned.
Import Stream GoIO.

(** [Framed]: the connection, both directions, and the flag. *)
Record Framed : Type := mkFramed {
  rd : rstream;
  wr : wstream;
  hasReadInitial : bool
}.

(** [FrameSection].  The [frame] back pointer is the frame the section
    is stored in; the [init] closure is fixed by the section's place in
    its frame (see [Read] below). *)
Record FrameSection : Type := mkSection {
  bytesRemaining : Z;
  startedReading : bool
}.

Record Frame : Type := mkFrame {
  Header : FrameSection;
  Body : FrameSection;
  headerLength : Z;
  bodyLength : Z
}.

Inductive sec : Type := SHeader | SBody.

Definition getSec (w : sec) (f : Frame) : FrameSection :=
  match w with SHeader => Header f | SBody => Body f end.

Definition setSec (w : sec) (x : FrameSection) (f : Frame) : Frame :=
  match w with
  | SHeader => mkFrame x (Body f) (headerLength f) (bodyLength f)
  | SBody => mkFrame (Header f) x (headerLength f) (bodyLength f)
  end.

Definition setRd (s : rstream) (c : Framed) : Framed :=
  mkFramed s (wr c) (hasReadInitial c).

Definition setWr (w : wstream) (c : Framed) : Framed :=
  mkFramed (rd c) w (hasReadInitial c).

(** A frame and the session it points back to. *)
Definition state : Type := (Frame * Framed)%type.

Definition NewFramed (r : rstream) (w : wstream) : Framed :=
  mkFramed r w false.

Definition alreadyReadInitial : string := "Initial Frame already read".
Definition alreadyReadFrame : string := "Already read from frame, cannot copy".

(** [FrameSection.Read], for the section [w] of the frame, with the
    [init] closure given as a function ([None] is [nil]). *)
Definition readSection
           (init : option (state -> res (option error * state)))
           (w : sec) (p : nat) (st : state)
  : res (list byte * option error * state) :=
  let '(f, c) := st in
  if bytesRemaining (getSec w f) =? 0 then Done ([], None, (f, c))
  else
    do (ierr, st1) <- match init with
                      | None => Done (None, (f, c))
                      | Some run => run (f, c)
                      end;
    let '(f1, c1) := st1 in
    match ierr with
    | Some e => Done ([], Some e, (f1, c1))
    | None =>
        let r := bytesRemaining (getSec w f1) in
        do k <- (if Z.of_nat p >? r
                 then (if r <? 0 then Panic else Done (Z.to_nat r))
                 else Done p);
        let '(bs, err, s') := sread k (rd c1) in
        let r' := if len bs >? 0 then r - len bs else r in
        let err' := if r' =? 0 then Some EOF else err in
        Done (bs, err', (setSec w (mkSection r' true) f1, setRd s' c1))
    end.

(** [FrameSection.drain], over the section's own [Read]. *)
Definition drainWith
           (read : nat -> state -> res (list byte * option error * state))
           (w : sec) (st : state) : res (option error * state) :=
  let r := bytesRemaining (getSec w (fst st)) in
  if r >? 0 then
    copyDiscard (Z.to_nat r + length (rd (snd st)) + 1) read st
  else Done (None, st).

(** [nextFrame] builds the header section with no [init] and the body
    section with [init] bound to the header's [drain]. *)
Definition Read (w : sec) : nat -> state -> res (list byte * option error * state) :=
  match w with
  | SHeader => readSection None SHeader
  | SBody =>
      readSection (Some (drainWith (readSection None SHeader) SHeader)) SBody
  end.

Definition drain (w : sec) : state -> res (option error * state) :=
  drainWith (Read w) w.

Definition int16Read := binary_Read16 Wire.int16.

(** [Frame.readLengths]. *)
Definition readLengths (st : state) : res (option error * state) :=
  let '(f, c) := st in
  do (v, err, s1) <- int16Read (rd c);
  match v, err with
  | Some hl, None =>
      let f1 := mkFrame (Header f) (Body f) hl (bodyLength f) in
      do (v2, err2, s2) <- int16Read s1;
      match v2, err2 with
      | Some bl, None =>
          Done (None,
                (mkFrame (mkSection hl (startedReading (Header f1)))
                         (mkSection bl (startedReading (Body f1)))
                         hl bl,
                 setRd s2 c))
      | _, _ => Done (err2, (f1, setRd s2 c))
      end
  | _, _ => Done (err, (f, setRd s1 c))
  end.

Definition emptyFrame : Frame :=
  mkFrame (mkSection 0 false) (mkSection 0 false) 0 0.

(** [Framed.nextFrame]: the frame is allocated first and returned
    whether or not its lengths could be read. *)
Definition nextFrame (c : Framed) : res (Frame * option error * Framed) :=
  do (err, st) <- readLengths (emptyFrame, c);
  Done (fst st, err, snd st).

(** [writeHeaderTo]. *)
Definition writeHeaderTo (out : wstream) (hl bl : Z)
  : option error * wstream :=
  let '(e, out1) := binary_Write16 hl out in
  match e with
  | Some _ => (e, out1)
  | None => binary_Write16 bl out1
  end.

Definition WriteHeader (hl bl : Z) (c : Framed) : option error * Framed :=
  let '(e, w') := writeHeaderTo (wr c) hl bl in (e, setWr w' c).

(** [Framed.WriteFrame]. *)
Definition WriteFrame (header body : list byte) (c : Framed)
  : option error * Framed :=
  let '(e, c1) :=
    WriteHeader (Wire.int16 (len header)) (Wire.int16 (len body)) c in
  match e with
  | Some _ => (e, c1)
  | None =>
      let '(_, e2, w2) := swrite header (wr c1) in
      match e2 with
      | Some _ => (e2, setWr w2 c1)
      | None =>
          let '(_, e3, w3) := swrite body w2 in (e3, setWr w3 c1)
      end
  end.

(** [Frame.CopyTo]: [out] is a writer of its own.  The sum of the two
    lengths is an [int16] sum. *)
Definition CopyTo (out : wstream) (st : state)
  : res (option error * wstream * state) :=
  let '(f, c) := st in
  if startedReading (Header f) || startedReading (Body f) then
    Done (Some (AlreadyReadError alreadyReadFrame), out, st)
  else
    let '(e, out1) := writeHeaderTo out (headerLength f) (bodyLength f) in
    match e with
    | Some _ => Done (e, out1, st)
    | None =>
        do (_, e2, s', out2) <-
           CopyN out1 (rd c) (Wire.int16 (headerLength f + bodyLength f));
        Done (e2, out2, (f, setRd s' c))
    end.

(** [Frame.NextFrame]: the next frame is [None] when the advance
    stopped while draining. *)
Definition NextFrame (st : state)
  : res (option Frame * option error * state) :=
  do (e1, st1) <- drain SHeader st;
  match e1 with
  | Some _ => Done (None, e1, st1)
  | None =>
      do (e2, st2) <- drain SBody st1;
      match e2 with
      | Some _ => Done (None, e2, st2)
      | None =>
          do (nf, e3, c3) <- nextFrame (snd st2);
          Done (Some nf, e3, (fst st2, c3))
      end
  end.

(** [Framed.ReadInitial]. *)
Definition ReadInitial (c : Framed)
  : res (option Frame * option error * Framed) :=
  if hasReadInitial c then
    Done (None, Some (AlreadyReadError alreadyReadInitial), c)
  else
    do (f, err, c1) <- nextFrame c;
    Done (Some f, err, mkFramed (rd c1) (wr c1) true).

End Sectioned.

(** ** A session together with the frames it has handed out *)
Module Session.
Import Stream GoIO Sectioned.

(** Frames are heap objects: a [*Frame] is an index into [frames].
    All frames of a session point back to the one [Framed]. *)
Record World : Type := mkWorld { conn : Framed; frames : list Frame }.

Definition ptr : Type := nat.

Fixpoint store (p : ptr) (f : Frame) (l : list Frame) : list Frame :=
  match l, p with
  | [], _ => []
  | _ :: t, O => f :: t
  | x :: t, S p' => x :: store p' f t
  end.

Definition NewWorld (r : rstream) (w : wstream) : World :=
  mkWorld (NewFramed r w) [].

(** Run a method of the frame at [p]; a dangling pointer panics. *)
Definition onFrame {A : Type} (p : ptr) (m : state -> res (A * state))
           (w : World) : res (A * World) :=
  match nth_error (frames w) p with
  | None => Panic
  | Some f =>
      do (a, st) <- m (f, conn w);
      Done (a, mkWorld (snd st) (store p (fst st) (frames w)))
  end.

Definition alloc (f : option Frame) (w : World) : option ptr * list Frame :=
  match f with
  | None => (None, frames w)
  | Some f => (Some (length (frames w)), frames w ++ [f])
  end.

Definition callReadInitial (w : World) : res (option ptr * option error * World) :=
  do (f, e, c) <- Sectioned.ReadInitial (conn w);
  let '(p, h) := alloc f w in
  Done (p, e, mkWorld c h).

Definition callNextFrame (p : ptr) (w : World)
  : res (option ptr * option error * World) :=
  do (r, w1) <- onFrame p (fun st => do (nf, e, st') <- Sectioned.NextFrame st;
                                     Done ((nf, e), st')) w;
  let '(q, h) := alloc (fst r) w1 in
  Done (q, snd r, mkWorld (conn w1) h).

(** The calls a client can make on a session and its frames. *)
Inductive call : Type :=
| CReadInitial
| CNextFrame (p : ptr)
| CRead (p : ptr) (w : sec) (k : nat)
| CCopyTo (p : ptr) (out : wstream)
| CWriteFrame (header body : list byte)
| CWriteHeader (hl bl : Z)
| CRawRead (k : nat)
| CRawWrite (bs : list byte).

Definition exec (c : call) (w : World) : res World :=
  match c with
  | CReadInitial => do (_, _, w') <- callReadInitial w; Done w'
  | CNextFrame p => do (_, _, w') <- callNextFrame p w; Done w'
  | CRead p s k =>
      do (_, w') <- onFrame p (fun st => do (bs, e, st') <- Read s k st;
                                      Done ((bs, e), st')) w;
      Done w'
  | CCopyTo p out =>
      do (_, w') <- onFrame p (fun st => do (e, o, st') <- CopyTo out st;
                                      Done ((e, o), st')) w;
      Done w'
  | CWriteFrame h b =>
      Done (mkWorld (snd (WriteFrame h b (conn w))) (frames w))
  | CWriteHeader hl bl =>
      Done (mkWorld (snd (WriteHeader hl bl (conn w))) (frames w))
  | CRawRead k =>
      let '(_, _, s') := sread k (rd (conn w)) in
      Done (mkWorld (setRd s' (conn w)) (frames w))
  | CRawWrite bs =>
      let '(_, _, o') := swrite bs (wr (conn w)) in
      Done (mkWorld (setWr o' (conn w)) (frames w))
  end.

Fixpoint run (cs : list call) (w : World) : res World :=
  match cs with
  | [] => Done w
  | c :: cs' => do w' <- exec c w; run cs' w'
  end.

End Session.

(** ** The single-section framing *)
Module Single.
Import Stream GoIO.

Definition FrameHeaderBits : Z := 16.
Definition FrameHeaderLength : Z := FrameHeaderBits / 8.
Definition MaxFrameLength : Z := Z.shiftl 1 FrameHeaderBits - 1.

Definition tooLongError : string :=
  "Attempted to write frame of length %d which is longer than maximum allowed length of %d".
Definition tooSmallError : string :=
  "Buffer of size %d is too small to hold frame of size %d".
Definition shortWriteError : string :=
  "%d bytes written, expected to write %d".

(** The functions assign to [innern], [innererr] and [innerframe],
    which they do not declare: variables of the package, whose
    declaration is not among the sources.  Their values on entry are
    taken as given.  The named results [n] and [err] are separate
    variables, zero on entry. *)
Record Globals : Type := mkGlobals {
  innern : Z;
  innererr : option error;
  innerframe : list byte
}.

Definition uint16Read := binary_Read16 Wire.uint16.

(** [Reader.Read(buffer)], [len(buffer) = k].  Returns [(n, err)], the
    bytes stored at the front of [buffer], and the new state. *)
Definition Reader_Read (k : nat) (g : Globals) (s : rstream)
  : res (Z * option error * list byte * (Globals * rstream)) :=
  let n := 0 in
  let err : option error := None in
  do (v, e, s1) <- uint16Read s;
  let g1 := mkGlobals (innern g) e (innerframe g) in
  match v, e with
  | Some nb, None =>
      let g2 := mkGlobals nb e (innerframe g) in
      let bufferSize := Z.of_nat k in
      if innern g2 >? bufferSize then
        Done (0, Some (Errorf tooSmallError [bufferSize; n]), [], (g2, s1))
      else
        do (got, e2, s2) <- ReadFull (Z.to_nat (innern g2)) s1;
        Done (n, err, got, (mkGlobals (len got) e2 (innerframe g), s2))
  | _, _ => Done (n, err, [], (g1, s1))
  end.

(** [Reader.ReadFrame()]: returns [(frame, err)]. *)
Definition Reader_ReadFrame (g : Globals) (s : rstream)
  : res (list byte * option error * (Globals * rstream)) :=
  let frame : list byte := [] in
  let err : option error := None in
  do (v, e, s1) <- uint16Read s;
  let g1 := mkGlobals (innern g) e (innerframe g) in
  match v, e with
  | Some nb, None =>
      do (got, e2, s2) <- ReadFull (Z.to_nat nb) s1;
      let buf := got ++ repeat x00 (Z.to_nat nb - length got) in
      Done (frame, err, (mkGlobals (innern g) e2 buf, s2))
  | _, _ => Done (frame, err, (g1, s1))
  end.

(** [Writer.Write(frame)]. *)
Definition Writer_Write (frame : list byte) (g : Globals) (w : wstream)
  : Z * option error * (Globals * wstream) :=
  let n := 0 in
  let err : option error := None in
  let g1 := mkGlobals (len frame) (innererr g) (innerframe g) in
  if innern g1 >? MaxFrameLength then
    (0, Some (Errorf tooLongError [n; MaxFrameLength]), (g1, w))
  else
    let '(e, w1) := binary_Write16 (Wire.uint16 (innern g1)) w in
    let g2 := mkGlobals (innern g1) e (innerframe g) in
    match e with
    | Some _ => (n, err, (g2, w1))
    | None =>
        let '(written, e2, w2) := swrite frame w1 in
        let g3 := mkGlobals (innern g1) e2 (innerframe g) in
        match e2 with
        | Some _ => (n, err, (g3, w2))
        | None =>
            if negb (written =? innern g3) then
              (n, err,
               (mkGlobals (innern g3)
                          (Some (Errorf shortWriteError [written; n]))
                          (innerframe g), w2))
            else (n, err, (g3, w2))
        end
    end.

(** The second loop of [WritePieces]: [None] when a write failed and
    the function returned from inside the loop. *)
Fixpoint writeAll (pieces : list (list byte)) (written : Z) (w : wstream)
  : option Z * option error * wstream :=
  match pieces with
  | [] => (Some written, None, w)
  | piece :: rest =>
      let '(nw, e, w1) := swrite piece w in
      match e with
      | Some _ => (None, e, w1)
      | None => writeAll rest (written + nw) w1
      end
  end.

(** [Writer.WritePieces(pieces...)]. *)
Definition Writer_WritePieces (pieces : list (list byte)) (g : Globals)
           (w : wstream) : Z * option error * (Globals * wstream) :=
  let n := 0 in
  let err : option error := None in
  let g1 := mkGlobals (fold_left (fun a piece => a + len piece) pieces (innern g))
                      (innererr g) (innerframe g) in
  if n >? MaxFrameLength then
    (0, Some (Errorf tooLongError [n; MaxFrameLength]), (g1, w))
  else
    let '(e, w1) := binary_Write16 (Wire.uint16 n) w in
    let g2 := mkGlobals (innern g1) e (innerframe g) in
    match e with
    | Some _ => (n, err, (g2, w1))
    | None =>
        let '(written, e2, w2) := writeAll pieces 0 w1 in
        let g3 := mkGlobals (innern g1) e2 (innerframe g) in
        match written with
        | None => (n, err, (g3, w2))
        | Some written =>
            if negb (written =? n) then
              (n, err,
               (mkGlobals (innern g1)
                          (Some (Errorf shortWriteError [written; n]))
                          (innerframe g), w2))
            else (n, err, (g3, w2))
        end
    end.

End Single.

(** ** Closed forms and the statements of the claims *)
Module Closed.
Import Stream GoIO Sectioned.

(** The error [io.ReadFull] makes of the failure that stopped it. *)
Definition fullError (got : list byte) (e : option error) : option error :=
  match e, got with
  | Some EOF, _ :: _ => Some ErrUnexpectedEOF
  | _, _ => e
  end.

Definition dropEOF (e : option error) : option error :=
  match e with Some EOF => None | _ => e end.

(** What draining the section [w] does to the frame and the connection,
    in closed form. *)
Definition drainSpec (w : sec) (st : state) : option error * state :=
  let '(f, c) := st in
  let r := bytesRemaining (getSec w f) in
  if r >? 0 then
    let '(bs, e, s') := pull (rd c) (Z.to_nat r) in
    (dropEOF e, (setSec w (mkSection (r - len bs) true) f, setRd s' c))
  else (None, st).

(** The header gives the body's [init] nothing more to do. *)
Definition settled (st : state) : Prop :=
  bytesRemaining (Header (fst st)) <= 0 \/
  (rd (snd st) = [] /\ startedReading (Header (fst st)) = true).

Definition lengthOf (b0 b1 : byte) : Z := Wire.int16 (Wire.Uint16 b0 b1).

Definition freshFrame (hl bl : Z) : Frame :=
  mkFrame (mkSection hl false) (mkSection bl false) hl bl.

Definition other (w : sec) : sec :=
  match w with SHeader => SBody | SBody => SHeader end.

(** The errors [nextFrame] can return come from the connection. *)
Definition transport_error (e : error) : Prop :=
  e = EOF \/ e = ErrUnexpectedEOF \/ exists k, e = Transport k.

(** The claim of C2 at one header, body and session: when a length is
    over 65535, [WriteFrame] returns an error and leaves the session as
    it was. *)
Definition oversize_rejected (header body : list byte) (c : Framed) : Prop :=
  65535 < len header \/ 65535 < len body ->
  exists e, WriteFrame header body c = (Some e, c).

(** Whether a [Read] made to obtain [n] more bytes of a section is
    answered by a failure: a fault, alone or together with bytes, or the
    end of the stream. *)
Fixpoint failureMet (s : rstream) (n : nat) {struct s} : bool :=
  match n with
  | O => false
  | S _ =>
      match s with
      | [] => true
      | Fault _ :: _ => true
      | Data bs :: s' =>
          if (length bs <? n)%nat then failureMet s' (n - length bs)
          else false
      | DataFault bs _ :: _ => (length bs <=? n)%nat
      end
  end.

(** The claim of C6 at one frame and session, for the header: when a
    [Read] made while draining the header is answered by a failure, the
    advance stops there, returning no frame and an error. *)
Definition drain_failure_aborts (f : Frame) (c : Framed) : Prop :=
  failureMet (rd c) (Z.to_nat (bytesRemaining (Header f))) = true ->
  exists e st', NextFrame (f, c) = Done (None, Some e, st').

(** The claim of C9 at one session: once the first [ReadInitial] has
    returned an error, no later call on the session, or on a frame it
    has handed out, returns a frame without an error. *)
Definition first_frame_lost (w : Session.World) : Prop :=
  forall p e w1,
    Session.callReadInitial w = Done (p, Some e, w1) ->
    forall cs w2, Session.run cs w1 = Done w2 ->
    (forall q w3, Session.callReadInitial w2 <> Done (Some q, None, w3)) /\
    (forall p' q w3, Session.callNextFrame p' w2 <> Done (Some q, None, w3)).

Definition exampleFrame : Frame := freshFrame 2 1.

Definition exampleWorld : Session.World :=
  Session.NewWorld [Data [x03; x00; x02; x00; x47; x45; x54; x2f; x69]] sink.

Definition faultyWorld : Session.World :=
  Session.NewWorld [Data [x03]; Fault 5; Data [x00; x02; x00]] sink.

(** A connection that faults once, before the first frame arrives. *)
Definition retryWorld : Session.World :=
  Session.NewWorld
    [Fault 5; Data [x03; x00; x02; x00; x47; x45; x54; x2f; x69]] sink.

End Closed.

(** ** Definitions for the further properties *)
Module More.
Import Stream GoIO Sectioned.

(** The bytes of one frame on the wire. *)
Definition frameBytes (header body : list byte) : list byte :=
  Wire.encode16 (len header) ++ Wire.encode16 (len body) ++ header ++ body.

(** The bytes of one frame of the single-section framing. *)
Definition singleBytes (frame : list byte) : list byte :=
  Wire.encode16 (len frame) ++ frame.

(** Writes made one after the other, up to the first one that fails. *)
Fixpoint writeSeq (ps : list (list byte)) (w : wstream)
  : option error * wstream :=
  match ps with
  | [] => (None, w)
  | p :: rest =>
      let '(_, e, w') := swrite p w in
      match e with
      | Some _ => (e, w')
      | None => writeSeq rest w'
      end
  end.

(** The bytes of a sequence of frames, one after the other. *)
Definition framesBytes (fs : list (list byte * list byte)) : list byte :=
  flat_map (fun hb => frameBytes (fst hb) (snd hb)) fs.

(** A reader that only advances: [n] times [NextFrame], each time from
    the frame just obtained, noting the two lengths of every frame it
    gets; it stops at the first advance that returns an error. *)
Fixpoint advance (n : nat) (st : state)
  : res (list (Z * Z) * option error * state) :=
  match n with
  | O => Done ([], None, st)
  | S n' =>
      do (nf, e, st') <- NextFrame st;
      match nf, e with
      | Some f', None =>
          do (ls, e', st'') <- advance n' (f', snd st');
          Done ((headerLength f', bodyLength f') :: ls, e', st'')
      | _, _ => Done ([], e, st')
      end
  end.

Definition lengthsOf (hb : list byte * list byte) : Z * Z :=
  (len (fst hb), len (snd hb)).

Definition fitsInt16 (hb : list byte * list byte) : Prop :=
  len (fst hb) <= 32767 /\ len (snd hb) <= 32767.

(** [WriteFrame] for each frame of a list, in order. *)
Definition writeFrames (fs : list (list byte * list byte)) (c : Framed) : Framed :=
  fold_left (fun c hb => snd (WriteFrame (fst hb) (snd hb) c)) fs c.

(** The error a read of the length prefixes reports when a faultless
    connection ends after [n] bytes, [n < 4]. *)
Definition shortPrefixError (n : nat) : error :=
  if Nat.even n then EOF else ErrUnexpectedEOF.

End More.

(** * Facts *)

Import Wire Stream GoIO Sectioned Single Closed.

(** ** The codec *)

Lemma Z_of_byte_range (b : byte) : 0 <= Z_of_byte b < 256.
Proof.
  unfold Z_of_byte. pose proof (Byte.to_N_bounded b). lia.
Qed.

Lemma Z_of_byte_of_Z (z : Z) : Z_of_byte (byte_of_Z z) = z mod 256.
Proof.
  unfold Z_of_byte, byte_of_Z.
  assert (Hr : 0 <= z mod 256 < 256) by (apply Z.mod_pos_bound; lia).
  destruct (Byte.of_N (Z.to_N (z mod 256))) as [b|] eqn:E.
  - apply Byte.to_of_N in E. rewrite E. lia.
  - apply Byte.of_N_None_iff in E. lia.
Qed.

Lemma byte_of_Z_of_byte (b : byte) : byte_of_Z (Z_of_byte b) = b.
Proof.
  unfold byte_of_Z. pose proof (Z_of_byte_range b) as Hr.
  rewrite Z.mod_small by exact Hr. unfold Z_of_byte.
  rewrite N2Z.id, Byte.of_to_N. reflexivity.
Qed.

Lemma lor_shift8 (a b : Z) : 0 <= a < 256 -> Z.lor a (Z.shiftl b 8) = a + 256 * b.
Proof.
  intros Ha.
  assert (Hz : Z.land a (Z.shiftl b 8) = 0).
  { apply Z.bits_inj'. intros n Hn. rewrite Z.land_spec, Z.bits_0.
    destruct (Z_lt_le_dec n 8) as [Hlt|Hge].
    - rewrite Z.shiftl_spec_low by lia. apply andb_false_r.
    - destruct (Z.eq_dec a 0) as [->|Hne].
      + rewrite Z.bits_0. reflexivity.
      + rewrite (Z.bits_above_log2 a n); [reflexivity|lia|].
        assert (Z.log2 a < 8) by (apply Z.log2_lt_pow2; lia). lia. }
  pose proof (Z.add_lor_land a (Z.shiftl b 8)) as H.
  rewrite Hz in H.
  assert (Hs : Z.shiftl b 8 = 256 * b)
    by (rewrite Z.shiftl_mul_pow2 by lia; change (2 ^ 8) with 256; lia).
  rewrite Hs in H at 2. lia.
Qed.

Lemma Uint16_PutUint16 (v : Z) :
  match PutUint16 v with
  | [b0; b1] => Uint16 b0 b1 = v mod 65536
  | _ => False
  end.
Proof.
  unfold PutUint16, Uint16.
  rewrite lor_shift8 by apply Z_of_byte_range.
  rewrite !Z_of_byte_of_Z, Z.shiftr_div_pow2 by lia.
  change (2 ^ 8) with 256.
  pose proof (Z.div_mod v 256 ltac:(lia)).
  pose proof (Z.mod_pos_bound v 256 ltac:(lia)).
  pose proof (Z.mod_pos_bound (v / 256) 256 ltac:(lia)).
  pose proof (Z.div_mod (v / 256) 256 ltac:(lia)).
  apply Z.mod_unique with (q := v / 256 / 256); lia.
Qed.

Lemma int16_uint16 (z : Z) : int16 (uint16 z) = int16 z.
Proof.
  unfold int16, uint16. f_equal.
  rewrite Z.add_mod_idemp_l by lia. reflexivity.
Qed.

Lemma int16_small (z : Z) : -32768 <= z <= 32767 -> int16 z = z.
Proof. intros H. unfold int16. rewrite Z.mod_small by lia. lia. Qed.

(** ** The connection *)

Lemma len_app {A} (l1 l2 : list A) : len (l1 ++ l2) = len l1 + len l2.
Proof. unfold len. rewrite length_app. lia. Qed.

Lemma len_nonneg {A} (l : list A) : 0 <= len l.
Proof. unfold len. lia. Qed.

Lemma len_nil {A} : len (@nil A) = 0.
Proof. reflexivity. Qed.


Lemma pull_zero s : pull s 0 = ([], None, s).
Proof. destruct s; reflexivity. Qed.

Lemma pull_nil n : (1 <= n)%nat -> pull [] n = ([], Some EOF, []).
Proof. destruct n; [lia|reflexivity]. Qed.

Lemma pull_fault c s n :
  (1 <= n)%nat -> pull (Fault c :: s) n = ([], Some (Transport c), s).
Proof. destruct n; [lia|reflexivity]. Qed.

Lemma pull_data_le bs s n :
  (1 <= n)%nat -> (length bs <= n)%nat ->
  pull (Data bs :: s) n =
  (let '(r, e, s2) := pull s (n - length bs) in (bs ++ r, e, s2)).
Proof.
  intros H1 H2. destruct n; [lia|].
  apply Nat.leb_le in H2. cbn [pull]. rewrite H2. reflexivity.
Qed.

Lemma pull_data_gt bs s n :
  (1 <= n)%nat -> (n < length bs)%nat ->
  pull (Data bs :: s) n = (firstn n bs, None, Data (skipn n bs) :: s).
Proof.
  intros H1 H2. destruct n; [lia|].
  apply Nat.leb_gt in H2. cbn [pull]. rewrite H2. reflexivity.
Qed.

Lemma pull_datafault_lt bs c s n :
  (length bs < n)%nat ->
  pull (DataFault bs c :: s) n = (bs, Some (Transport c), s).
Proof.
  intros H. destruct n; [lia|].
  apply Nat.ltb_lt in H. cbn [pull]. rewrite H. reflexivity.
Qed.

Lemma pull_datafault_eq bs c s n :
  (1 <= n)%nat -> length bs = n ->
  pull (DataFault bs c :: s) n = (bs, None, s).
Proof.
  intros H1 H2. destruct n; [lia|]. cbn [pull].
  rewrite <- H2, Nat.ltb_irrefl, Nat.eqb_refl. reflexivity.
Qed.

Lemma pull_datafault_gt bs c s n :
  (1 <= n)%nat -> (n < length bs)%nat ->
  pull (DataFault bs c :: s) n =
  (firstn n bs, None, DataFault (skipn n bs) c :: s).
Proof.
  intros H1 H2. destruct n; [lia|]. cbn [pull].
  assert (E1 : (length bs <? S n)%nat = false) by (apply Nat.ltb_ge; lia).
  assert (E2 : (length bs =? S n)%nat = false) by (apply Nat.eqb_neq; lia).
  rewrite E1, E2. reflexivity.
Qed.

(** One [Read] of at most [k] bytes, seen as the first step of reading
    [n] bytes.  A [Read] that reports an error ends the reading; its
    error counts unless its bytes complete the [n]. *)
Lemma pull_step s n k :
  (1 <= k <= n)%nat ->
  forall bs e s1, sread k s = (bs, e, s1) ->
  match e with
  | Some _ =>
      pull s n = (bs, (if (length bs =? n)%nat then None else e), s1) /\
      (length bs <= k)%nat
  | None =>
      pull s n = (let '(r, e', s2) := pull s1 (n - length bs) in
                  (bs ++ r, e', s2)) /\
      (length bs <= k)%nat /\
      (n - length bs + length s1 < n + length s)%nat
  end.
Proof.
  intros Hk bs e s1 Hr.
  destruct s as [|[cs|c|cs c] s']; cbn [sread] in Hr.
  - inversion Hr; subst. cbn [length].
    assert (E : (0 =? n)%nat = false) by (apply Nat.eqb_neq; lia).
    rewrite E. split; [apply pull_nil; lia|lia].
  - destruct (length cs <=? k)%nat eqn:E; inversion Hr; subst; clear Hr.
    + apply Nat.leb_le in E. split; [|split].
      * apply pull_data_le; lia.
      * exact E.
      * cbn [length]. lia.
    + apply Nat.leb_gt in E.
      assert (Hlen : length (firstn k cs) = k) by (rewrite length_firstn; lia).
      rewrite Hlen. split; [|split]; [|lia|cbn [length]; lia].
      destruct (Nat.eq_dec k n) as [->|Hne].
      * rewrite Nat.sub_diag, pull_zero, app_nil_r. apply pull_data_gt; lia.
      * destruct (le_lt_dec (length cs) n) as [Hle|Hgt].
        -- rewrite pull_data_le by lia.
           rewrite pull_data_le by (rewrite ?length_skipn; lia).
           rewrite length_skipn.
           replace (n - k - (length cs - k))%nat with (n - length cs)%nat by lia.
           destruct (pull s' (n - length cs)) as [[r e'] s2].
           rewrite app_assoc, firstn_skipn. reflexivity.
        -- rewrite pull_data_gt by lia.
           rewrite pull_data_gt by (rewrite ?length_skipn; lia).
           rewrite skipn_skipn.
           replace (n - k + k)%nat with n by lia.
           f_equal. f_equal.
           rewrite <- (firstn_skipn k cs) at 1.
           rewrite firstn_app, Hlen.
           rewrite (firstn_all2 (n := n)) by lia. reflexivity.
  - inversion Hr; subst. cbn [length].
    assert (E : (0 =? n)%nat = false) by (apply Nat.eqb_neq; lia).
    rewrite E. split; [apply pull_fault; lia|lia].
  - destruct (length cs <=? k)%nat eqn:E; inversion Hr; subst; clear Hr.
    + apply Nat.leb_le in E. split; [|exact E].
      destruct (length bs =? n)%nat eqn:En.
      * apply Nat.eqb_eq in En. apply pull_datafault_eq; lia.
      * apply Nat.eqb_neq in En. apply pull_datafault_lt; lia.
    + apply Nat.leb_gt in E.
      assert (Hlen : length (firstn k cs) = k) by (rewrite length_firstn; lia).
      rewrite Hlen. split; [|split]; [|lia|cbn [length]; lia].
      destruct (Nat.eq_dec k n) as [->|Hne].
      * rewrite Nat.sub_diag, pull_zero, app_nil_r.
        apply pull_datafault_gt; lia.
      * destruct (lt_eq_lt_dec (length cs) n) as [[Hlt|Heq]|Hgt].
        -- rewrite pull_datafault_lt by lia.
           rewrite pull_datafault_lt by (rewrite ?length_skipn; lia).
           rewrite firstn_skipn. reflexivity.
        -- rewrite pull_datafault_eq by lia.
           rewrite pull_datafault_eq by (rewrite ?length_skipn; lia).
           rewrite firstn_skipn. reflexivity.
        -- rewrite pull_datafault_gt by lia.
           rewrite pull_datafault_gt by (rewrite ?length_skipn; lia).
           rewrite skipn_skipn.
           replace (n - k + k)%nat with n by lia.
           f_equal. f_equal.
           rewrite <- (firstn_skipn k cs) at 1.
           rewrite firstn_app, Hlen.
           rewrite (firstn_all2 (n := n)) by lia. reflexivity.
Qed.

(** What [pull] guarantees about its result. *)
Lemma pull_spec s : forall n bs e s',
  pull s n = (bs, e, s') ->
  (length bs <= n)%nat /\ (length s' <= length s)%nat /\
  match e with
  | None => length bs = n
  | Some EOF => s' = [] /\ (length bs < n)%nat
  | Some (Transport _) => (length bs < n)%nat
  | Some _ => False
  end.
Proof.
  induction s as [|[cs|c|cs c] s IH]; intros n bs e s' H;
    (destruct (Nat.eq_dec n 0) as [->|Hn];
     [rewrite pull_zero in H; inversion H; subst; cbn [length]; repeat split; lia|]).
  - rewrite pull_nil in H by lia. inversion H; subst. cbn [length].
    repeat split; lia.
  - destruct (le_lt_dec (length cs) n) as [Hle|Hgt].
    + rewrite pull_data_le in H by lia.
      destruct (pull s (n - length cs)) as [[r e'] s2] eqn:P.
      inversion H; subst; clear H.
      destruct (IH _ _ _ _ P) as (Ha & Hb & Hc).
      rewrite length_app. split; [lia|]. split; [cbn [length]; lia|].
      destruct e as [[]|]; try tauto; try lia.
      destruct Hc; split; [assumption|lia].
    + rewrite pull_data_gt in H by lia. inversion H; subst; clear H.
      rewrite length_firstn. cbn [length]. split; [lia|]. split; lia.
  - rewrite pull_fault in H by lia. inversion H; subst. cbn [length].
    repeat split; lia.
  - destruct (lt_eq_lt_dec (length cs) n) as [[Hlt|Heq]|Hgt].
    + rewrite pull_datafault_lt in H by lia. inversion H; subst.
      cbn [length]. repeat split; lia.
    + rewrite pull_datafault_eq in H by lia. inversion H; subst.
      cbn [length]. repeat split; lia.
    + rewrite pull_datafault_gt in H by lia. inversion H; subst; clear H.
      rewrite length_firstn. cbn [length]. split; [lia|]. split; lia.
Qed.

(** *** [io.ReadFull] and [binary.Read] in closed form *)

Lemma ReadAtLeast_loop_stop fuel min got e s :
  ReadAtLeast_loop fuel min got (Some e) s = Done (got, Some e, s).
Proof. destruct fuel; cbn; rewrite andb_false_r; reflexivity. Qed.

Lemma ReadAtLeast_loop_pull : forall fuel min got s,
  (length got <= min)%nat ->
  (min - length got + length s < fuel)%nat ->
  forall bs e s', pull s (min - length got) = (bs, e, s') ->
  exists e0,
    ReadAtLeast_loop fuel min got None s = Done (got ++ bs, e0, s') /\
    ((length bs < min - length got)%nat -> e0 = e).
Proof.
  induction fuel as [|fuel IH]; intros min got s Hg Hf bs e s' Hp; [lia|].
  cbn [ReadAtLeast_loop is_nil]. rewrite andb_true_r.
  destruct (length got <? min)%nat eqn:E.
  - apply Nat.ltb_lt in E.
    destruct (sread (min - length got) s) as [[bs0 e0] s1] eqn:R.
    pose proof (pull_step s (min - length got) (min - length got)
                  ltac:(lia) _ _ _ R) as P.
    destruct e0 as [e0|].
    + destruct P as [P Hb]. rewrite P in Hp. inversion Hp; subst; clear Hp.
      rewrite ReadAtLeast_loop_stop. exists (Some e0). split; [reflexivity|].
      intros Hlt.
      assert (En : (length bs =? min - length got)%nat = false)
        by (apply Nat.eqb_neq; lia).
      rewrite En. reflexivity.
    + destruct P as (P & Hb & Hm). rewrite P in Hp.
      destruct (pull s1 (min - length got - length bs0)) as [[r e'] s2] eqn:P1.
      inversion Hp; subst; clear Hp.
      destruct (IH min (got ++ bs0) s1) with (bs := r) (e := e) (s' := s')
        as (e1 & L & He); try (rewrite length_app; lia).
      { rewrite length_app.
        replace (min - (length got + length bs0))%nat
          with (min - length got - length bs0)%nat by lia.
        exact P1. }
      exists e1. rewrite L, app_assoc. split; [reflexivity|].
      intros Hlt. apply He. rewrite !length_app in *. lia.
  - apply Nat.ltb_ge in E.
    replace (min - length got)%nat with 0%nat in Hp by lia.
    rewrite pull_zero in Hp. inversion Hp; subst.
    rewrite app_nil_r. exists None. split; reflexivity.
Qed.


Lemma ReadFull_pull n s :
  ReadFull n s =
  Done (let '(bs, e, s') := pull s n in (bs, fullError bs e, s')).
Proof.
  unfold ReadFull.
  destruct (pull s n) as [[bs e] s'] eqn:P.
  destruct (ReadAtLeast_loop_pull (n + length s + 1) n [] s
              ltac:(cbn [length]; lia) ltac:(cbn [length]; lia) bs e s')
    as (e0 & L & He).
  { cbn [length]. rewrite Nat.sub_0_r. exact P. }
  rewrite L. cbn [length bind app]. rewrite Nat.sub_0_r in He.
  destruct (pull_spec _ _ _ _ _ P) as (Ha & Hb & Hc).
  do 3 f_equal.
  destruct e as [e|].
  - assert (Hlt : (length bs < n)%nat) by (destruct e; tauto || lia).
    assert (E : (n <=? length bs)%nat = false) by (apply Nat.leb_gt; lia).
    rewrite E, (He Hlt). destruct e; try tauto; destruct bs; reflexivity.
  - assert (E : (n <=? length bs)%nat = true) by (apply Nat.leb_le; lia).
    rewrite E. reflexivity.
Qed.

Lemma binary_Read16_ok conv s b0 b1 s' :
  pull s 2 = ([b0; b1], None, s') ->
  binary_Read16 conv s = Done (Some (conv (Uint16 b0 b1)), None, s').
Proof.
  intros P. unfold binary_Read16. rewrite ReadFull_pull, P. reflexivity.
Qed.

Lemma binary_Read16_fail conv s bs e s' :
  pull s 2 = (bs, Some e, s') ->
  binary_Read16 conv s = Done (None, fullError bs (Some e), s').
Proof.
  intros P. unfold binary_Read16. rewrite ReadFull_pull, P.
  destruct e, bs; reflexivity.
Qed.

(** [binary.Read] never panics and never runs out of budget. *)
Lemma binary_Read16_total conv s :
  exists v e s', binary_Read16 conv s = Done (v, e, s') /\
                 (v = None <-> e <> None) /\ (length s' <= length s)%nat.
Proof.
  destruct (pull s 2) as [[bs e] s'] eqn:P.
  destruct (pull_spec _ _ _ _ _ P) as (Ha & Hb & Hc).
  destruct e as [e|].
  - exists None, (fullError bs (Some e)), s'.
    rewrite (binary_Read16_fail conv _ _ _ _ P). split; [reflexivity|].
    split; [|assumption]. split; [|reflexivity].
    intros _. destruct e, bs; discriminate.
  - destruct bs as [|b0 [|b1 [|]]]; cbn [length] in Hc; try lia.
    exists (Some (conv (Uint16 b0 b1))), None, s'.
    rewrite (binary_Read16_ok conv _ _ _ _ P). split; [reflexivity|].
    split; [|assumption]. split; [discriminate|congruence].
Qed.

(** *** Reading and draining a section *)


Lemma setSec_setSec w x y f : setSec w x (setSec w y f) = setSec w x f.
Proof. destruct w; reflexivity. Qed.

Lemma getSec_setSec w x f : getSec w (setSec w x f) = x.
Proof. destruct w; reflexivity. Qed.

Lemma setRd_setRd s1 s2 c : setRd s1 (setRd s2 c) = setRd s1 c.
Proof. reflexivity. Qed.

Lemma rd_setRd s c : rd (setRd s c) = s.
Proof. reflexivity. Qed.

(** A [Read] with no [init] to run, on a section with bytes left. *)
Lemma readSection_plain w p f c :
  0 < bytesRemaining (getSec w f) ->
  readSection None w p (f, c) =
  (let r := bytesRemaining (getSec w f) in
   let k := if Z.of_nat p >? r then Z.to_nat r else p in
   let '(bs, err, s') := sread k (rd c) in
   Done (bs, (if r - len bs =? 0 then Some EOF else err),
         (setSec w (mkSection (r - len bs) true) f, setRd s' c))).
Proof.
  intros Hr. unfold readSection.
  destruct (bytesRemaining (getSec w f) =? 0) eqn:E0;
    [apply Z.eqb_eq in E0; lia|].
  cbn [bind].
  destruct (Z.of_nat p >? bytesRemaining (getSec w f)) eqn:Ep.
  - destruct (bytesRemaining (getSec w f) <? 0) eqn:En;
      [apply Z.ltb_lt in En; lia|].
    cbn [bind].
    destruct (sread _ (rd c)) as [[bs err] s'].
    destruct (len bs >? 0) eqn:El; [reflexivity|].
    assert (len bs = 0) by (pose proof (len_nonneg bs); lia).
    replace (bytesRemaining (getSec w f) - len bs)
      with (bytesRemaining (getSec w f)) by lia.
    reflexivity.
  - cbn [bind].
    destruct (sread _ (rd c)) as [[bs err] s'].
    destruct (len bs >? 0) eqn:El; [reflexivity|].
    assert (len bs = 0) by (pose proof (len_nonneg bs); lia).
    replace (bytesRemaining (getSec w f) - len bs)
      with (bytesRemaining (getSec w f)) by lia.
    reflexivity.
Qed.

Section SectionLoop.

Variable read : nat -> state -> res (list byte * option error * state).
Variable w : sec.
Variable Inv : state -> Prop.

Hypothesis read_plain :
  forall p st, Inv st -> read p st = readSection None w p st.
Hypothesis Inv_step :
  forall p st bs e st',
    Inv st -> readSection None w p st = Done (bs, e, st') -> Inv st'.

(** Reading a section until it reports an error takes from the
    connection exactly the bytes the section still has to deliver, or
    what comes before the first failure. *)
Lemma section_loop : forall fuel p acc f c,
  Inv (f, c) -> (1 <= p)%nat ->
  0 < bytesRemaining (getSec w f) ->
  (Z.to_nat (bytesRemaining (getSec w f)) + length (rd c) < fuel)%nat ->
  readUntilError fuel p read acc (f, c) =
  Done (let r := bytesRemaining (getSec w f) in
        let '(bs, e, s') := pull (rd c) (Z.to_nat r) in
        (acc ++ bs, dropEOF e,
         (setSec w (mkSection (r - len bs) true) f, setRd s' c))).
Proof.
  induction fuel as [|fuel IH]; intros p acc f c HI Hp Hr Hf; [lia|].
  cbn [readUntilError]. rewrite read_plain by assumption.
  pose proof (Inv_step p (f, c)) as Hstep.
  rewrite readSection_plain in * by assumption. cbv zeta in *.
  set (r := bytesRemaining (getSec w f)) in *.
  set (k := if Z.of_nat p >? r then Z.to_nat r else p) in *.
  assert (Hk : (1 <= k <= Z.to_nat r)%nat).
  { subst k. destruct (Z.of_nat p >? r) eqn:E; lia. }
  destruct (sread k (rd c)) as [[bs e] s1] eqn:R.
  pose proof (pull_step (rd c) (Z.to_nat r) k Hk _ _ _ R) as P.
  specialize (Hstep _ _ _ HI eq_refl).
  cbn [bind].
  destruct e as [e|].
  - destruct P as [P Hb]. rewrite P.
    assert (Hlen : len bs = Z.of_nat (length bs)) by reflexivity.
    destruct (r - len bs =? 0) eqn:E0.
    + apply Z.eqb_eq in E0.
      assert (En : (length bs =? Z.to_nat r)%nat = true)
        by (apply Nat.eqb_eq; lia).
      rewrite En. reflexivity.
    + apply Z.eqb_neq in E0.
      assert (En : (length bs =? Z.to_nat r)%nat = false)
        by (apply Nat.eqb_neq; lia).
      rewrite En. destruct e; reflexivity.
  - destruct P as (P & Hb & Hm). rewrite P.
    assert (Hlen : len bs = Z.of_nat (length bs)) by reflexivity.
    destruct (r - len bs =? 0) eqn:E0.
    + apply Z.eqb_eq in E0.
      replace (Z.to_nat r - length bs)%nat with 0%nat by lia.
      rewrite pull_zero, !app_nil_r. reflexivity.
    + apply Z.eqb_neq in E0.
      rewrite IH; try assumption;
        rewrite ?getSec_setSec, ?rd_setRd; cbn [bytesRemaining]; try lia.
      replace (Z.to_nat (r - len bs)) with (Z.to_nat r - length bs)%nat by lia.
      destruct (pull s1 (Z.to_nat r - length bs)) as [[bs2 e2] s2].
      rewrite setSec_setSec, setRd_setRd, app_assoc, len_app.
      replace (r - len bs - len bs2) with (r - (len bs + len bs2)) by lia.
      reflexivity.
Qed.

End SectionLoop.



Lemma discardBuffer_pos : (1 <= discardBuffer)%nat.
Proof. unfold discardBuffer. lia. Qed.

Lemma drainWith_plain w st :
  drainWith (readSection None w) w st = Done (drainSpec w st).
Proof.
  destruct st as [f c]. unfold drainWith, drainSpec, copyDiscard. cbn [fst snd].
  destruct (bytesRemaining (getSec w f) >? 0) eqn:E; [|reflexivity].
  rewrite (section_loop (readSection None w) w (fun _ => True));
    auto using discardBuffer_pos; try lia.
  cbv zeta. destruct (pull _ _) as [[bs e] s']. reflexivity.
Qed.

Lemma drain_header st : drain SHeader st = Done (drainSpec SHeader st).
Proof. apply drainWith_plain. Qed.

Lemma drainSpec_settled st : settled st -> drainSpec SHeader st = (None, st).
Proof.
  destruct st as [f c]. unfold settled, drainSpec. cbn [fst snd getSec].
  intros [H|[Hs Ht]].
  - destruct (bytesRemaining (Header f) >? 0) eqn:E; [lia|reflexivity].
  - destruct (bytesRemaining (Header f) >? 0) eqn:E; [|reflexivity].
    rewrite Hs, pull_nil by lia. cbn [dropEOF].
    change (len (@nil byte)) with 0. rewrite Z.sub_0_r.
    destruct f as [[hr hs] b hl bl], c as [r wv fl]. cbn in *. subst.
    reflexivity.
Qed.

(** Once the header drain has returned without error, the header is
    settled. *)
Lemma drainSpec_header_settles st st1 :
  drainSpec SHeader st = (None, st1) ->
  settled st1 /\ Body (fst st1) = Body (fst st) /\
  (length (rd (snd st1)) <= length (rd (snd st)))%nat.
Proof.
  destruct st as [f c]. unfold drainSpec, settled. cbn [fst snd getSec].
  destruct (bytesRemaining (Header f) >? 0) eqn:E.
  - destruct (pull (rd c) _) as [[bs e] s'] eqn:P.
    destruct (pull_spec _ _ _ _ _ P) as (Ha & Hb & Hc).
    intros H. inversion H; subst; clear H. cbn.
    split; [|split; [reflexivity|assumption]].
    destruct e as [[]|]; try discriminate; try tauto.
    left. unfold len. lia.
  - intros H. inversion H; subst. cbn. split; [left; lia|split; [reflexivity|lia]].
Qed.

Lemma drainSpec_header_error st e st1 :
  drainSpec SHeader st = (Some e, st1) ->
  (exists k, e = Transport k) /\ Body (fst st1) = Body (fst st).
Proof.
  destruct st as [f c]. unfold drainSpec. cbn [fst snd getSec].
  destruct (bytesRemaining (Header f) >? 0) eqn:E; [|discriminate].
  destruct (pull (rd c) _) as [[bs e'] s'] eqn:P.
  destruct (pull_spec _ _ _ _ _ P) as (Ha & Hb & Hc).
  intros H. inversion H; subst; clear H. cbn.
  destruct e' as [[]|]; try discriminate; try tauto.
  cbn in H1. inversion H1; subst. split; [eauto|reflexivity].
Qed.

(** [Read] on the body: run the header's drain, then read. *)
Lemma Read_body p st :
  bytesRemaining (Body (fst st)) <> 0 ->
  Read SBody p st =
  match drainSpec SHeader st with
  | (Some e, st1) => Done ([], Some e, st1)
  | (None, st1) => readSection None SBody p st1
  end.
Proof.
  destruct st as [f c]. cbn [fst]. intros Hb.
  unfold Read. unfold readSection at 1. cbn [getSec].
  destruct (bytesRemaining (Body f) =? 0) eqn:E0; [apply Z.eqb_eq in E0; lia|].
  rewrite drainWith_plain. cbn [bind].
  destruct (drainSpec SHeader (f, c)) as [[e|] [f1 c1]] eqn:D.
  - reflexivity.
  - apply drainSpec_header_settles in D. destruct D as (_ & HB & _).
    cbn [fst] in HB. unfold readSection. cbn [getSec].
    rewrite <- HB in E0. rewrite E0. reflexivity.
Qed.

Lemma Read_body_settled p st :
  settled st -> Read SBody p st = readSection None SBody p st.
Proof.
  intros Hs. destruct st as [f c].
  destruct (Z.eq_dec (bytesRemaining (Body f)) 0) as [E|E].
  - unfold Read, readSection. cbn [getSec]. rewrite E. reflexivity.
  - rewrite Read_body by exact E. rewrite drainSpec_settled by exact Hs.
    reflexivity.
Qed.

Lemma settled_step p st bs e st' :
  settled st -> readSection None SBody p st = Done (bs, e, st') -> settled st'.
Proof.
  destruct st as [f c]. unfold settled, readSection. cbn [fst snd getSec].
  intros Hs.
  destruct (bytesRemaining (Body f) =? 0); [intros H; inversion H; subst; exact Hs|].
  cbn [bind].
  destruct (if Z.of_nat p >? bytesRemaining (Body f)
            then if bytesRemaining (Body f) <? 0 then Panic
                 else Done (Z.to_nat (bytesRemaining (Body f)))
            else Done p) as [k| |]; cbn [bind]; try discriminate.
  destruct (sread k (rd c)) as [[bs' err] s'] eqn:R.
  intros H. inversion H; subst; clear H. cbn.
  destruct Hs as [Hs|[Hs Ht]]; [left; exact Hs|right].
  rewrite Hs in R. cbn in R. inversion R; subst. split; [reflexivity|exact Ht].
Qed.

Lemma body_loop_settled fuel p acc f c :
  settled (f, c) -> (1 <= p)%nat ->
  0 < bytesRemaining (Body f) ->
  (Z.to_nat (bytesRemaining (Body f)) + length (rd c) < fuel)%nat ->
  readUntilError fuel p (Read SBody) acc (f, c) =
  Done (let r := bytesRemaining (Body f) in
        let '(bs, e, s') := pull (rd c) (Z.to_nat r) in
        (acc ++ bs, dropEOF e,
         (setSec SBody (mkSection (r - len bs) true) f, setRd s' c))).
Proof.
  intros. apply (section_loop (Read SBody) SBody settled); auto.
  - intros. apply Read_body_settled. assumption.
  - intros. eapply settled_step; eassumption.
Qed.

(** The body loop from any state: the first [Read] drains the header. *)
Lemma body_loop fuel p acc st :
  (1 <= p)%nat ->
  0 < bytesRemaining (Body (fst st)) ->
  (Z.to_nat (bytesRemaining (Body (fst st))) + length (rd (snd st)) < fuel)%nat ->
  readUntilError fuel p (Read SBody) acc st =
  match drainSpec SHeader st with
  | (Some e, st1) => Done (acc, Some e, st1)
  | (None, (f1, c1)) =>
      Done (let r := bytesRemaining (Body f1) in
            let '(bs, e, s') := pull (rd c1) (Z.to_nat r) in
            (acc ++ bs, dropEOF e,
             (setSec SBody (mkSection (r - len bs) true) f1, setRd s' c1)))
  end.
Proof.
  intros Hp Hb Hf.
  destruct (drainSpec SHeader st) as [[e|] [f1 c1]] eqn:D.
  - destruct fuel as [|fuel]; [lia|]. cbn [readUntilError].
    rewrite Read_body, D by lia. cbn [bind].
    destruct (drainSpec_header_error _ _ _ D) as [[k ->] _].
    rewrite app_nil_r. reflexivity.
  - destruct (drainSpec_header_settles _ _ D) as (Hs & HB & Hl).
    cbn [fst snd] in HB, Hl.
    rewrite <- (body_loop_settled fuel p acc f1 c1)
      by (try assumption; rewrite ?HB; lia).
    destruct fuel as [|fuel]; [lia|]. cbn [readUntilError].
    rewrite Read_body, D by lia.
    rewrite Read_body_settled by assumption. reflexivity.
Qed.

Lemma drain_body st :
  drain SBody st =
  if bytesRemaining (Body (fst st)) >? 0 then
    match drainSpec SHeader st with
    | (Some e, st1) => Done (Some e, st1)
    | (None, st1) => Done (drainSpec SBody st1)
    end
  else Done (None, st).
Proof.
  unfold drain, drainWith. cbn [getSec].
  destruct (bytesRemaining (Body (fst st)) >? 0) eqn:E; [|reflexivity].
  unfold copyDiscard.
  rewrite body_loop by (auto using discardBuffer_pos; lia).
  destruct (drainSpec SHeader st) as [[e|] [f1 c1]] eqn:D; [reflexivity|].
  destruct (drainSpec_header_settles _ _ D) as (Hs & HB & Hl).
  cbn [fst] in HB. unfold drainSpec. cbn [getSec bind]. rewrite HB, E.
  cbv zeta. destruct (pull _ _) as [[bs e] s']. reflexivity.
Qed.

(** *** Faultless connections *)

Lemma pull_content : forall s n,
  faultless s = true -> (n <= length (content s))%nat ->
  exists s', pull s n = (firstn n (content s), None, s') /\
             faultless s' = true /\ content s' = skipn n (content s).
Proof.
  induction s as [|[cs|c|cs c] s IH]; intros n Hf Hn.
  - cbn [content length] in *. assert (n = 0%nat) by lia. subst.
    exists []. rewrite pull_zero. auto.
  - cbn [content faultless] in *. rewrite length_app in Hn.
    destruct (Nat.eq_dec n 0) as [->|Hn0].
    { eexists. rewrite pull_zero. cbn [firstn skipn content faultless]. auto. }
    destruct (le_lt_dec (length cs) n) as [Hle|Hgt].
    + destruct (IH (n - length cs)%nat Hf ltac:(lia)) as (s' & P & F & C).
      exists s'. rewrite pull_data_le, P by lia.
      rewrite firstn_app, skipn_app, C.
      rewrite (firstn_all2 (n := n)), (skipn_all2 (n := n)) by lia.
      auto.
    + exists (Data (skipn n cs) :: s). rewrite pull_data_gt by lia.
      cbn [content faultless].
      rewrite firstn_app, skipn_app.
      replace (n - length cs)%nat with 0%nat by lia.
      cbn [firstn skipn]. rewrite app_nil_r. auto.
  - discriminate.
  - discriminate.
Qed.

(** *** Reading the length prefixes *)



Lemma nextFrame_ok c b0 b1 b2 b3 s1 s2 :
  pull (rd c) 2 = ([b0; b1], None, s1) ->
  pull s1 2 = ([b2; b3], None, s2) ->
  nextFrame c =
  Done (freshFrame (lengthOf b0 b1) (lengthOf b2 b3), None, setRd s2 c).
Proof.
  intros P1 P2. unfold nextFrame, readLengths, int16Read.
  rewrite (binary_Read16_ok _ _ _ _ _ P1). cbn [bind].
  rewrite (binary_Read16_ok _ _ _ _ _ P2). reflexivity.
Qed.

Lemma nextFrame_fail_first c bs e s1 :
  pull (rd c) 2 = (bs, Some e, s1) ->
  nextFrame c = Done (emptyFrame, fullError bs (Some e), setRd s1 c).
Proof.
  intros P1. unfold nextFrame, readLengths, int16Read.
  rewrite (binary_Read16_fail _ _ _ _ _ P1). cbn [bind].
  destruct (fullError bs (Some e)) eqn:E; [reflexivity|].
  destruct e, bs; discriminate.
Qed.

Lemma nextFrame_fail_second c b0 b1 s1 bs e s2 :
  pull (rd c) 2 = ([b0; b1], None, s1) ->
  pull s1 2 = (bs, Some e, s2) ->
  nextFrame c =
  Done (mkFrame (mkSection 0 false) (mkSection 0 false) (lengthOf b0 b1) 0,
        fullError bs (Some e), setRd s2 c).
Proof.
  intros P1 P2. unfold nextFrame, readLengths, int16Read.
  rewrite (binary_Read16_ok _ _ _ _ _ P1). cbn [bind].
  rewrite (binary_Read16_fail _ _ _ _ _ P2). cbn [bind].
  destruct (fullError bs (Some e)) eqn:E; [reflexivity|].
  destruct e, bs; discriminate.
Qed.

(** [nextFrame] always returns; it moves the read position only. *)
Lemma nextFrame_total c :
  exists f e s', nextFrame c = Done (f, e, setRd s' c) /\
                 (length s' <= length (rd c))%nat.
Proof.
  unfold nextFrame, readLengths, int16Read.
  destruct (binary_Read16_total int16 (rd c)) as (v & e & s1 & -> & Hv & Hl).
  cbn [bind].
  destruct v as [hl|], e as [e|];
    try (eexists _, _, s1; split; [reflexivity|assumption]).
  destruct (binary_Read16_total int16 s1) as (v2 & e2 & s2 & -> & Hv2 & Hl2).
  cbn [bind].
  destruct v2 as [bl|], e2 as [e2|];
    (eexists _, _, s2; split; [reflexivity|lia]).
Qed.

Lemma nextFrame_at_end c :
  rd c = [] -> nextFrame c = Done (emptyFrame, Some EOF, c).
Proof.
  intros H. rewrite (nextFrame_fail_first c [] EOF []).
  - destruct c; cbn in *; subst; reflexivity.
  - rewrite H. reflexivity.
Qed.

(** *** [NextFrame] in closed form *)

Lemma NextFrame_closed st :
  NextFrame st =
  match drainSpec SHeader st with
  | (Some e, st1) => Done (None, Some e, st1)
  | (None, st1) =>
      match drainSpec SBody st1 with
      | (Some e, st2) => Done (None, Some e, st2)
      | (None, st2) =>
          do (nf, e3, c3) <- nextFrame (snd st2);
          Done (Some nf, e3, (fst st2, c3))
      end
  end.
Proof.
  unfold NextFrame. rewrite drain_header. cbn [bind].
  destruct (drainSpec SHeader st) as [[e|] st1] eqn:D; [reflexivity|].
  rewrite drain_body.
  destruct (drainSpec_header_settles _ _ D) as (Hs & _ & _).
  rewrite (drainSpec_settled _ Hs).
  destruct (bytesRemaining (Body (fst st1)) >? 0) eqn:E.
  - cbn [bind]. destruct (drainSpec SBody st1) as [[e|] st2]; reflexivity.
  - unfold drainSpec. destruct st1 as [f1 c1]. cbn [getSec fst] in *.
    rewrite E. reflexivity.
Qed.

(** ** The session flag *)

Lemma readSection_flag w p f c bs e st' :
  readSection None w p (f, c) = Done (bs, e, st') ->
  hasReadInitial (snd st') = hasReadInitial c.
Proof.
  unfold readSection.
  destruct (bytesRemaining (getSec w f) =? 0);
    [intros H; inversion H; reflexivity|].
  cbn [bind].
  destruct (if Z.of_nat p >? bytesRemaining (getSec w f)
            then if bytesRemaining (getSec w f) <? 0 then Panic
                 else Done (Z.to_nat (bytesRemaining (getSec w f)))
            else Done p) as [k| |]; cbn [bind]; try discriminate.
  destruct (sread k (rd c)) as [[bs' err] s'].
  intros H. inversion H; reflexivity.
Qed.

Lemma drainSpec_flag w st e st' :
  drainSpec w st = (e, st') ->
  hasReadInitial (snd st') = hasReadInitial (snd st).
Proof.
  destruct st as [f c]. unfold drainSpec.
  destruct (bytesRemaining (getSec w f) >? 0).
  - destruct (pull _ _) as [[bs e'] s']. intros H. inversion H; reflexivity.
  - intros H. inversion H; reflexivity.
Qed.

Lemma Read_flag w p st bs e st' :
  Read w p st = Done (bs, e, st') ->
  hasReadInitial (snd st') = hasReadInitial (snd st).
Proof.
  destruct w.
  - destruct st as [f c]. apply readSection_flag.
  - destruct (Z.eq_dec (bytesRemaining (Body (fst st))) 0) as [E|E].
    + destruct st as [f c]. unfold Read, readSection. cbn [getSec fst] in *.
      rewrite E. cbn. intros H. inversion H; reflexivity.
    + rewrite Read_body by exact E.
      destruct (drainSpec SHeader st) as [[e1|] [f1 c1]] eqn:D;
        apply drainSpec_flag in D; cbn [snd] in D.
      * intros H. inversion H; subst. exact D.
      * intros H. apply readSection_flag in H. congruence.
Qed.

Lemma NextFrame_flag st nf e st' :
  NextFrame st = Done (nf, e, st') ->
  hasReadInitial (snd st') = hasReadInitial (snd st).
Proof.
  rewrite NextFrame_closed.
  destruct (drainSpec SHeader st) as [[e1|] st1] eqn:D1;
    apply drainSpec_flag in D1.
  - intros H. inversion H; subst. exact D1.
  - destruct (drainSpec SBody st1) as [[e2|] st2] eqn:D2;
      apply drainSpec_flag in D2.
    + intros H. inversion H; subst. congruence.
    + destruct (nextFrame_total (snd st2)) as (f3 & e3 & s3 & -> & _).
      cbn [bind]. intros H. inversion H; subst. cbn. congruence.
Qed.

Lemma CopyTo_flag out st e out' st' :
  CopyTo out st = Done (e, out', st') ->
  hasReadInitial (snd st') = hasReadInitial (snd st).
Proof.
  destruct st as [f c]. unfold CopyTo.
  destruct (startedReading (Header f) || startedReading (Body f));
    [intros H; inversion H; reflexivity|].
  destruct (writeHeaderTo out (headerLength f) (bodyLength f)) as [[e1|] out1];
    [intros H; inversion H; reflexivity|].
  destruct (CopyN _ _ _) as [[[[n e2] s'] out2]| |]; cbn [bind];
    try discriminate.
  intros H. inversion H; reflexivity.
Qed.

Lemma WriteFrame_flag h b c :
  hasReadInitial (snd (WriteFrame h b c)) = hasReadInitial c.
Proof.
  unfold WriteFrame, WriteHeader.
  destruct (writeHeaderTo _ _ _) as [[e|] w1]; [reflexivity|].
  cbn [wr setWr].
  destruct (swrite h w1) as [[n [e2|]] w2]; [reflexivity|].
  destruct (swrite b w2) as [[n3 e3] w3]. reflexivity.
Qed.

Lemma WriteHeader_flag hl bl c :
  hasReadInitial (snd (WriteHeader hl bl c)) = hasReadInitial c.
Proof.
  unfold WriteHeader. destruct (writeHeaderTo _ _ _) as [e w1]. reflexivity.
Qed.


Lemma Uint16_range b0 b1 : 0 <= Uint16 b0 b1 < 65536.
Proof.
  unfold Uint16. rewrite lor_shift8 by apply Z_of_byte_range.
  pose proof (Z_of_byte_range b0). pose proof (Z_of_byte_range b1). lia.
Qed.

Lemma uint16_Uint16 b0 b1 : uint16 (Uint16 b0 b1) = Uint16 b0 b1.
Proof. unfold uint16. apply Z.mod_small, Uint16_range. Qed.

Lemma pull_keeps_content : forall s n bs e s',
  faultless s = true -> pull s n = (bs, e, s') ->
  content s = bs ++ content s' /\ faultless s' = true.
Proof.
  induction s as [|[cs|c|cs c] s IH]; intros n bs e s' Hf P;
    (destruct (Nat.eq_dec n 0) as [->|Hn];
     [rewrite pull_zero in P; inversion P; subst; auto|]).
  - rewrite pull_nil in P by lia. inversion P; subst. auto.
  - cbn [faultless] in Hf.
    destruct (le_lt_dec (length cs) n) as [Hle|Hgt].
    + rewrite pull_data_le in P by lia.
      destruct (pull s (n - length cs)) as [[r e'] s2] eqn:P2.
      inversion P; subst; clear P.
      destruct (IH _ _ _ _ Hf P2) as [C F].
      cbn [content]. rewrite C, app_assoc. auto.
    + rewrite pull_data_gt in P by lia. inversion P; subst; clear P.
      cbn [content faultless]. rewrite app_assoc, firstn_skipn. auto.
  - discriminate.
  - discriminate.
Qed.

(** ** The single-section framing *)

(** C10.  [Reader.Read] with a buffer shorter than the frame announced by
    the two prefix bytes returns 0 and an error; the two prefix bytes
    are gone from the stream by then and the payload is still in it, so
    the stream no longer stands at the start of a frame. *)
Theorem Reader_Read_buffer_too_small
        (k : nat) (g : Globals) (s s1 : rstream) (b0 b1 : byte) :
  pull s 2 = ([b0; b1], None, s1) ->
  Z.of_nat k < Uint16 b0 b1 ->
  (exists g',
     Reader_Read k g s =
     Done (0, Some (Errorf tooSmallError [Z.of_nat k; 0]), [], (g', s1))) /\
  (faultless s = true -> content s = b0 :: b1 :: content s1).
Proof.
  intros P Hk. split.
  - unfold Reader_Read, uint16Read.
    rewrite (binary_Read16_ok _ _ _ _ _ P). cbn [bind innern].
    rewrite uint16_Uint16.
    destruct (Uint16 b0 b1 >? Z.of_nat k) eqn:E; [|lia].
    eexists. reflexivity.
  - intros F. destruct (pull_keeps_content _ _ _ _ _ F P) as [C _].
    exact C.
Qed.

Lemma Reader_Read_buffer_too_small_witness :
  pull [Data [x03; x00; x61; x62; x63]] 2 =
    ([x03; x00], None, [Data [x61; x62; x63]]) /\
  Z.of_nat 2 < Uint16 x03 x00 /\
  (exists g',
     Reader_Read 2 (mkGlobals 0 None []) [Data [x03; x00; x61; x62; x63]] =
     Done (0, Some (Errorf tooSmallError [Z.of_nat 2; 0]), [],
           (g', [Data [x61; x62; x63]]))) /\
  (faultless [Data [x03; x00; x61; x62; x63]] = true ->
   content [Data [x03; x00; x61; x62; x63]] =
   x03 :: x00 :: content [Data [x61; x62; x63]]).
Proof.
  split; [reflexivity|]. split; [vm_compute; reflexivity|].
  apply (Reader_Read_buffer_too_small 2 (mkGlobals 0 None [])
           [Data [x03; x00; x61; x62; x63]] [Data [x61; x62; x63]] x03 x00).
  - reflexivity.
  - vm_compute. reflexivity.
Defined.

Lemma fold_len_shift : forall (pieces : list (list byte)) a,
  fold_left (fun x piece => x + len piece) pieces a =
  a + len (concat pieces).
Proof.
  induction pieces as [|p ps IH]; intros a; cbn [fold_left concat].
  - rewrite len_nil. lia.
  - rewrite IH, len_app. lia.
Qed.

Lemma writeAll_accepting : forall pieces written out,
  writeAll pieces written (mkW out []) =
  (Some (written + len (concat pieces)), None, mkW (out ++ concat pieces) []).
Proof.
  induction pieces as [|p ps IH]; intros written out; cbn [writeAll concat].
  - rewrite len_nil, Z.add_0_r, app_nil_r. reflexivity.
  - unfold swrite. cbn [wplan wout]. rewrite IH, len_app, app_assoc.
    do 3 f_equal. lia.
Qed.

(** C8.  On a stream that accepts every write, [WritePieces] writes the
    two prefix bytes 0, 0 whatever the pieces are, then the pieces in
    order; it returns [(0, nil)], also when the pieces add up to more
    than [MaxFrameLength].  The sum of the lengths goes to [innern]
    while the check and the prefix use [n], which stays 0. *)
Theorem WritePieces_prefix_is_zero
        (pieces : list (list byte)) (g : Globals) (out : list byte) :
  exists g',
    Writer_WritePieces pieces g (mkW out []) =
    (0, None, (g', mkW (out ++ [x00; x00] ++ concat pieces) [])) /\
    innern g' = innern g + len (concat pieces).
Proof.
  unfold Writer_WritePieces.
  change (0 >? MaxFrameLength) with false. cbv iota.
  change (binary_Write16 (uint16 0) (mkW out []))
    with (@None error, mkW (out ++ [x00; x00]) []).
  cbv iota beta. rewrite writeAll_accepting, <- app_assoc.
  cbn [innern]. rewrite fold_len_shift.
  destruct (negb (0 + len (concat pieces) =? 0)); eexists; split; reflexivity.
Qed.

Example WritePieces_one_byte :
  Writer_WritePieces [[x61]] (mkGlobals 0 None []) sink =
  (0, None,
   (mkGlobals 1 (Some (Errorf shortWriteError [1; 0])) [],
    mkW [x00; x00; x61] [])).
Proof. reflexivity. Qed.

(** [Writer.Write], next to it, checks [innern] and writes [innern] as
    the prefix. *)
Lemma Writer_Write_prefix (frame : list byte) (g : Globals) (out : list byte) :
  len frame <= MaxFrameLength ->
  exists g',
    Writer_Write frame g (mkW out []) =
    (0, None, (g', mkW (out ++ encode16 (len frame) ++ frame) [])).
Proof.
  intros H. unfold Writer_Write. cbn [innern].
  destruct (len frame >? MaxFrameLength) eqn:E; [lia|].
  unfold binary_Write16, swrite. cbn [wplan wout innern].
  rewrite Z.eqb_refl. cbn [negb]. unfold encode16, uint16.
  rewrite Z.mod_mod by lia. rewrite <- app_assoc. eexists. reflexivity.
Qed.

Lemma Writer_Write_too_long (frame : list byte) (g : Globals) (w : wstream) :
  MaxFrameLength < len frame ->
  exists g',
    Writer_Write frame g w =
    (0, Some (Errorf tooLongError [0; MaxFrameLength]), (g', w)).
Proof.
  intros H. unfold Writer_Write. cbn [innern].
  destruct (len frame >? MaxFrameLength) eqn:E; [|lia].
  eexists. reflexivity.
Qed.

(** ** Lengths over 32767 in the sectioned framing *)

(** A section whose counter is negative cannot be read. *)
Lemma readSection_negative w p f c :
  bytesRemaining (getSec w f) < 0 -> readSection None w p (f, c) = Panic.
Proof.
  intros Hr. unfold readSection.
  destruct (bytesRemaining (getSec w f) =? 0) eqn:E0;
    [apply Z.eqb_eq in E0; lia|].
  cbn [bind].
  destruct (Z.of_nat p >? bytesRemaining (getSec w f)) eqn:Ep.
  - destruct (bytesRemaining (getSec w f) <? 0) eqn:En; [reflexivity|lia].
  - rewrite Z.gtb_ltb in Ep. apply Z.ltb_ge in Ep. lia.
Qed.

Lemma CopyN_nonpositive dst s n :
  n <= 0 -> CopyN dst s n = Done (0, None, s, dst).
Proof.
  intros Hn. unfold CopyN.
  replace (Z.to_nat n + length s + 2)%nat with (S (S (length s))) by lia.
  cbn [copyLoop]. unfold limitedRead.
  destruct (n <=? 0) eqn:E; [|lia].
  change (len (@nil byte)) with 0. cbn [bind Z.ltb Z.compare].
  destruct (0 =? n) eqn:E0.
  - apply Z.eqb_eq in E0. subst. reflexivity.
  - destruct (0 <? n) eqn:E1; [lia|]. reflexivity.
Qed.

Lemma WriteFrame_accepting h b r out fl :
  WriteFrame h b (mkFramed r (mkW out []) fl) =
  (None,
   mkFramed r (mkW (out ++ encode16 (int16 (len h)) ++
                        encode16 (int16 (len b)) ++ h ++ b) []) fl).
Proof.
  unfold WriteFrame, WriteHeader, writeHeaderTo, binary_Write16, swrite, setWr.
  cbn [wr wplan wout rd hasReadInitial]. rewrite <- !app_assoc. reflexivity.
Qed.

Lemma len_repeat (b : byte) (n : Z) : 0 <= n -> len (repeat b (Z.to_nat n)) = n.
Proof. intros H. unfold len. rewrite repeat_length. lia. Qed.

(** [Read] on a section with no bytes left. *)
Lemma Read_exhausted (w : sec) (p : nat) (f : Frame) (c : Framed) :
  bytesRemaining (getSec w f) = 0 ->
  Read w p (f, c) = Done ([], None, (f, c)).
Proof.
  intros H. destruct w; unfold Read, readSection; rewrite H; reflexivity.
Qed.

(** C3.  A peer announces a header of 32768 bytes (prefix bytes 00 80).
    The frame built from it has a header section with counter -32768,
    and any [Read] of that section panics. *)
Theorem declared_length_32768_breaks_reader
        (rest : rstream) (wv : wstream) (p : nat) :
  let c := NewFramed (Data [x00; x80; x00; x00] :: rest) wv in
  let f := freshFrame (-32768) 0 in
  nextFrame c = Done (f, None, setRd rest c) /\
  bytesRemaining (Header f) = -32768 /\
  Read SHeader p (f, setRd rest c) = Panic.
Proof.
  cbv zeta. split; [|split].
  - rewrite (nextFrame_ok _ x00 x80 x00 x00 (Data [x00; x00] :: rest) rest).
    + reflexivity.
    + reflexivity.
    + rewrite pull_data_le by (cbn; lia). cbn [length Nat.sub].
      rewrite pull_zero. reflexivity.
  - reflexivity.
  - apply readSection_negative. cbn. lia.
Qed.

(** C5.  A frame announced with header length 32767 and body length 1,
    not read from yet: [CopyTo] writes the four prefix bytes and nothing
    else, takes nothing from the connection, and reports success.  The
    byte count given to [io.CopyN] is the [int16] sum of the two lengths,
    -32768 here. *)
Theorem CopyTo_length_sum_overflows (rest : rstream) (wv : wstream) :
  let c := NewFramed (Data [xff; x7f; x01; x00] :: rest) wv in
  let f := freshFrame 32767 1 in
  nextFrame c = Done (f, None, setRd rest c) /\
  CopyTo sink (f, setRd rest c) =
  Done (None, mkW [xff; x7f; x01; x00] [], (f, setRd rest c)).
Proof.
  cbv zeta. split.
  - rewrite (nextFrame_ok _ xff x7f x01 x00 (Data [x01; x00] :: rest) rest).
    + reflexivity.
    + reflexivity.
    + rewrite pull_data_le by (cbn; lia). cbn [length Nat.sub].
      rewrite pull_zero. reflexivity.
  - unfold CopyTo. cbn [freshFrame Header Body startedReading orb
                        headerLength bodyLength].
    change (writeHeaderTo sink 32767 1)
      with (@None error, mkW [xff; x7f; x01; x00] []).
    cbv iota beta.
    rewrite CopyN_nonpositive by (vm_compute; discriminate).
    reflexivity.
Qed.

(** C1.  The header is 32768 zero bytes and the body is empty.
    [WriteFrame] succeeds; on the peer, [ReadInitial] succeeds and gives a
    frame whose header counter is -32768, and reading the header
    panics instead of giving the header back. *)
Theorem roundtrip_fails_at_32768 :
  let H := repeat x00 (Z.to_nat 32768) in
  exists a f c,
    WriteFrame H [] (NewFramed [] sink) = (None, a) /\
    ReadInitial (NewFramed [Data (wout (wr a))] sink) = Done (Some f, None, c) /\
    bytesRemaining (Header f) = -32768 /\
    forall p, Read SHeader p (f, c) = Panic.
Proof.
  cbv zeta. set (H := repeat x00 (Z.to_nat 32768)).
  unfold NewFramed, sink. rewrite WriteFrame_accepting.
  assert (HL : len H = 32768) by (apply len_repeat; lia).
  clearbody H. rewrite HL.
  change (encode16 (int16 32768)) with [x00; x80].
  change (encode16 (int16 (len (@nil byte)))) with [x00; x00].
  cbn [app wr wout].
  eexists _, (freshFrame (-32768) 0), _. split; [reflexivity|].
  split; [|split].
  - unfold ReadInitial. cbn [hasReadInitial wr wout].
    rewrite (nextFrame_ok _ x00 x80 x00 x00
               [Data (x00 :: x00 :: H ++ [])] [Data (H ++ [])]).
    + reflexivity.
    + cbn [rd]. rewrite pull_data_gt by (cbn [length]; lia). reflexivity.
    + rewrite pull_data_gt.
      * reflexivity.
      * lia.
      * cbn [length]. rewrite length_app. unfold len in HL. lia.
  - reflexivity.
  - intros p. apply readSection_negative. cbn. lia.
Qed.

(** ** Advancing to the next frame *)

Lemma setRd_same c : setRd (rd c) c = c.
Proof. destruct c; reflexivity. Qed.

(** [drainSpec] in terms of what the connection yields. *)
Lemma drainSpec_pull w f c bs e s' :
  pull (rd c) (Z.to_nat (bytesRemaining (getSec w f))) = (bs, e, s') ->
  exists f',
    drainSpec w (f, c) = (dropEOF e, (f', setRd s' c)) /\
    bytesRemaining (getSec w f') = bytesRemaining (getSec w f) - len bs /\
    getSec (other w) f' = getSec (other w) f.
Proof.
  intros P. unfold drainSpec.
  destruct (bytesRemaining (getSec w f) >? 0) eqn:E.
  - rewrite P. eexists. split; [reflexivity|].
    rewrite getSec_setSec. split; [reflexivity|]. destruct w; reflexivity.
  - replace (Z.to_nat (bytesRemaining (getSec w f))) with 0%nat in P by lia.
    rewrite pull_zero in P. inversion P; subst.
    exists f. rewrite setRd_same. change (len (@nil byte)) with 0.
    split; [reflexivity|]. split; [lia|reflexivity].
Qed.

(** The cases of an advance, by what the connection yields for the
    header and for the body. *)
Lemma NextFrame_by_cases (f : Frame) (c : Framed) :
  let hr := Z.to_nat (bytesRemaining (Header f)) in
  let br := Z.to_nat (bytesRemaining (Body f)) in
  (forall bs1 s1 bs2 s2,
     pull (rd c) hr = (bs1, None, s1) -> pull s1 br = (bs2, None, s2) ->
     exists f',
       NextFrame (f, c) =
       (do (nf, e, c') <- nextFrame (setRd s2 c); Done (Some nf, e, (f', c'))) /\
       bytesRemaining (Header f') = bytesRemaining (Header f) - len bs1 /\
       bytesRemaining (Body f') = bytesRemaining (Body f) - len bs2) /\
  (forall bs1 k s1,
     pull (rd c) hr = (bs1, Some (Transport k), s1) ->
     exists f',
       NextFrame (f, c) = Done (None, Some (Transport k), (f', setRd s1 c))) /\
  (forall bs1 s1 bs2 k s2,
     pull (rd c) hr = (bs1, None, s1) ->
     pull s1 br = (bs2, Some (Transport k), s2) ->
     exists f',
       NextFrame (f, c) = Done (None, Some (Transport k), (f', setRd s2 c))) /\
  (forall bs1 s1,
     pull (rd c) hr = (bs1, Some EOF, s1) ->
     exists f',
       NextFrame (f, c) = Done (Some emptyFrame, Some EOF, (f', setRd [] c))) /\
  (forall bs1 s1 bs2 s2,
     pull (rd c) hr = (bs1, None, s1) -> pull s1 br = (bs2, Some EOF, s2) ->
     exists f',
       NextFrame (f, c) = Done (Some emptyFrame, Some EOF, (f', setRd [] c))).
Proof.
  cbv zeta. rewrite NextFrame_closed. repeat split.
  - intros bs1 s1 bs2 s2 P1 P2.
    destruct (drainSpec_pull SHeader f c _ _ _ P1) as (f1 & D1 & R1 & O1).
    cbn [getSec other] in R1, O1. rewrite D1. cbn [dropEOF].
    rewrite <- O1 in P2.
    destruct (drainSpec_pull SBody f1 (setRd s1 c) _ _ _ P2) as (f2 & D2 & R2 & O2).
    cbn [getSec other] in R2, O2. rewrite D2. cbn [dropEOF fst snd].
    rewrite setRd_setRd. exists f2. split; [reflexivity|].
    rewrite O2, R2, O1. auto.
  - intros bs1 k s1 P1.
    destruct (drainSpec_pull SHeader f c _ _ _ P1) as (f1 & D1 & _).
    rewrite D1. cbn [dropEOF]. eauto.
  - intros bs1 s1 bs2 k s2 P1 P2.
    destruct (drainSpec_pull SHeader f c _ _ _ P1) as (f1 & D1 & R1 & O1).
    cbn [getSec other] in R1, O1. rewrite D1. cbn [dropEOF].
    rewrite <- O1 in P2.
    destruct (drainSpec_pull SBody f1 (setRd s1 c) _ _ _ P2) as (f2 & D2 & _).
    rewrite D2. cbn [dropEOF]. rewrite setRd_setRd. eauto.
  - intros bs1 s1 P1.
    destruct (pull_spec _ _ _ _ _ P1) as (_ & _ & -> & _).
    destruct (drainSpec_pull SHeader f c _ _ _ P1) as (f1 & D1 & _).
    rewrite D1. cbn [dropEOF].
    destruct (pull [] (Z.to_nat (bytesRemaining (getSec SBody f1))))
      as [[bs2 e2] s2] eqn:P2.
    destruct (drainSpec_pull SBody f1 (setRd [] c) _ _ _ P2) as (f2 & D2 & _).
    rewrite D2.
    assert (He : dropEOF e2 = None /\ s2 = []).
    { destruct (Z.to_nat (bytesRemaining (getSec SBody f1))); cbn in P2;
        inversion P2; subst; auto. }
    destruct He as [-> ->]. cbn [fst snd]. rewrite setRd_setRd.
    rewrite nextFrame_at_end by reflexivity. cbn [bind]. eauto.
  - intros bs1 s1 bs2 s2 P1 P2.
    destruct (pull_spec _ _ _ _ _ P2) as (_ & _ & -> & _).
    destruct (drainSpec_pull SHeader f c _ _ _ P1) as (f1 & D1 & R1 & O1).
    cbn [getSec other] in R1, O1. rewrite D1. cbn [dropEOF].
    rewrite <- O1 in P2.
    destruct (drainSpec_pull SBody f1 (setRd s1 c) _ _ _ P2) as (f2 & D2 & _).
    rewrite D2. cbn [dropEOF fst snd]. rewrite setRd_setRd.
    rewrite nextFrame_at_end by reflexivity. cbn [bind]. eauto.
Qed.

(** [failureMet] against [pull]: when no [Read] made for the [n] bytes
    fails, the bytes are had; when the bytes cannot be had, a [Read]
    has failed.  The converse of the second does not hold: a fault that
    comes with the last of the [n] bytes is a failure met, and [pull]
    has the bytes. *)
Lemma failureMet_pull : forall s n,
  failureMet s n = false -> exists bs s', pull s n = (bs, None, s').
Proof.
  induction s as [|[cs|c|cs c] s IH]; intros n H;
    (destruct n as [|n]; [rewrite pull_zero; eauto|]);
    cbn [failureMet] in H; try discriminate.
  - destruct (length cs <? S n)%nat eqn:E.
    + apply Nat.ltb_lt in E.
      destruct (IH _ H) as (bs & s' & P).
      rewrite pull_data_le, P by lia. eauto.
    + apply Nat.ltb_ge in E.
      destruct (Nat.eq_dec (length cs) (S n)) as [Heq|Hne].
      * rewrite pull_data_le by lia.
        replace (S n - length cs)%nat with 0%nat by lia.
        rewrite pull_zero. eauto.
      * rewrite pull_data_gt by lia. eauto.
  - apply Nat.leb_gt in H. rewrite pull_datafault_gt by lia. eauto.
Qed.

Lemma pull_error_failureMet : forall s n bs e s',
  pull s n = (bs, Some e, s') -> failureMet s n = true.
Proof.
  induction s as [|[cs|c|cs c] s IH]; intros n bs e s' P;
    (destruct n as [|n]; [rewrite pull_zero in P; discriminate|]);
    cbn [failureMet]; try reflexivity.
  - destruct (length cs <? S n)%nat eqn:E.
    + apply Nat.ltb_lt in E. rewrite pull_data_le in P by lia.
      destruct (pull s (S n - length cs)) as [[r e'] s2] eqn:P2.
      inversion P; subst. exact (IH _ _ _ _ P2).
    + apply Nat.ltb_ge in E.
      destruct (Nat.eq_dec (length cs) (S n)) as [Heq|Hne].
      * rewrite pull_data_le in P by lia.
        replace (S n - length cs)%nat with 0%nat in P by lia.
        rewrite pull_zero in P. discriminate.
      * rewrite pull_data_gt in P by lia. discriminate.
  - destruct (lt_eq_lt_dec (length cs) (S n)) as [[Hlt|Heq]|Hgt].
    + apply Nat.leb_le. lia.
    + apply Nat.leb_le. lia.
    + rewrite pull_datafault_gt in P by lia. discriminate.
Qed.

(** C6, as the code has it.  Both counters non-negative.  [NextFrame] drains
    what is left of the header, then what is left of the body, then
    reads the next pair of lengths.  (a) When no [Read] made while
    draining fails, both sections end up empty and the next frame is the
    one [nextFrame] builds at the position after their bytes.  (b, c) A
    fault reported while the header, or the body, is still incomplete
    ends the advance: no frame, that fault, and no lengths are read.
    (d, e) The end of the stream inside the header or the body does not
    end the advance: the drain returns no error, the lengths are read
    next, and it is that read which returns [io.EOF], with the frame it
    had allocated. *)
Theorem NextFrame_drains_then_advances (f : Frame) (c : Framed) :
  0 <= bytesRemaining (Header f) -> 0 <= bytesRemaining (Body f) ->
  let hr := Z.to_nat (bytesRemaining (Header f)) in
  let br := Z.to_nat (bytesRemaining (Body f)) in
  (forall bs1 s1 bs2 s2,
     failureMet (rd c) hr = false -> pull (rd c) hr = (bs1, None, s1) ->
     failureMet s1 br = false -> pull s1 br = (bs2, None, s2) ->
     exists f',
       NextFrame (f, c) =
       (do (nf, e, c') <- nextFrame (setRd s2 c); Done (Some nf, e, (f', c'))) /\
       len bs1 = bytesRemaining (Header f) /\
       len bs2 = bytesRemaining (Body f) /\
       bytesRemaining (Header f') = 0 /\ bytesRemaining (Body f') = 0) /\
  (forall bs1 k s1,
     pull (rd c) hr = (bs1, Some (Transport k), s1) ->
     len bs1 < bytesRemaining (Header f) /\
     exists f',
       NextFrame (f, c) = Done (None, Some (Transport k), (f', setRd s1 c))) /\
  (forall bs1 s1 bs2 k s2,
     pull (rd c) hr = (bs1, None, s1) ->
     pull s1 br = (bs2, Some (Transport k), s2) ->
     len bs2 < bytesRemaining (Body f) /\
     exists f',
       NextFrame (f, c) = Done (None, Some (Transport k), (f', setRd s2 c))) /\
  (forall bs1 s1,
     pull (rd c) hr = (bs1, Some EOF, s1) ->
     len bs1 < bytesRemaining (Header f) /\
     exists f',
       NextFrame (f, c) = Done (Some emptyFrame, Some EOF, (f', setRd [] c))) /\
  (forall bs1 s1 bs2 s2,
     pull (rd c) hr = (bs1, None, s1) -> pull s1 br = (bs2, Some EOF, s2) ->
     len bs2 < bytesRemaining (Body f) /\
     exists f',
       NextFrame (f, c) = Done (Some emptyFrame, Some EOF, (f', setRd [] c))).
Proof.
  intros Hh Hb. cbv zeta.
  destruct (NextFrame_by_cases f c) as (A & B & C & D & E). cbv zeta in *.
  split; [|split; [|split; [|split]]].
  - intros bs1 s1 bs2 s2 _ P1 _ P2.
    destruct (A _ _ _ _ P1 P2) as (f' & N & R1 & R2).
    destruct (pull_spec _ _ _ _ _ P1) as (_ & _ & L1).
    destruct (pull_spec _ _ _ _ _ P2) as (_ & _ & L2).
    exists f'. unfold len in *. repeat split; [exact N|lia..].
  - intros bs1 k s1 P1.
    destruct (pull_spec _ _ _ _ _ P1) as (_ & _ & L1).
    split; [unfold len; lia|]. exact (B _ _ _ P1).
  - intros bs1 s1 bs2 k s2 P1 P2.
    destruct (pull_spec _ _ _ _ _ P2) as (_ & _ & L2).
    split; [unfold len; lia|]. exact (C _ _ _ _ _ P1 P2).
  - intros bs1 s1 P1.
    destruct (pull_spec _ _ _ _ _ P1) as (_ & _ & _ & L1).
    split; [unfold len; lia|]. exact (D _ _ P1).
  - intros bs1 s1 bs2 s2 P1 P2.
    destruct (pull_spec _ _ _ _ _ P2) as (_ & _ & _ & L2).
    split; [unfold len; lia|]. exact (E _ _ _ _ P1 P2).
Qed.

Lemma NextFrame_drains_then_advances_witness :
  (exists f',
     NextFrame (exampleFrame, NewFramed [Data [x61; x62; x63; x01; x00; x00; x00; x64]] sink) =
     Done (Some (freshFrame 1 0), None, (f', NewFramed [Data [x64]] sink)) /\
     bytesRemaining (Header f') = 0 /\ bytesRemaining (Body f') = 0) /\
  (exists f',
     NextFrame (exampleFrame, NewFramed [DataFault [x61] 7; Data [x62; x63]] sink) =
     Done (None, Some (Transport 7), (f', NewFramed [Data [x62; x63]] sink))) /\
  (exists f',
     NextFrame (exampleFrame, NewFramed [Data [x61; x62]; Fault 9; Data [x63]] sink) =
     Done (None, Some (Transport 9), (f', NewFramed [Data [x63]] sink))) /\
  (exists f',
     NextFrame (exampleFrame, NewFramed [Data [x61]] sink) =
     Done (Some emptyFrame, Some EOF, (f', NewFramed [] sink))) /\
  (exists f',
     NextFrame (exampleFrame, NewFramed [Data [x61; x62]] sink) =
     Done (Some emptyFrame, Some EOF, (f', NewFramed [] sink))).
Proof.
  split; [|split; [|split; [|split]]].
  - destruct (NextFrame_drains_then_advances exampleFrame
                (NewFramed [Data [x61; x62; x63; x01; x00; x00; x00; x64]] sink)
                ltac:(cbn; lia) ltac:(cbn; lia))
      as (A & _).
    destruct (A [x61; x62] [Data [x63; x01; x00; x00; x00; x64]]
                [x63] [Data [x01; x00; x00; x00; x64]]
                eq_refl eq_refl eq_refl eq_refl)
      as (f' & E & _ & _ & Hh & Hb).
    exists f'. split; [|split]; [rewrite E; reflexivity|exact Hh|exact Hb].
  - destruct (NextFrame_drains_then_advances exampleFrame
                (NewFramed [DataFault [x61] 7; Data [x62; x63]] sink)
                ltac:(cbn; lia) ltac:(cbn; lia))
      as (_ & B & _).
    exact (proj2 (B [x61] 7%nat [Data [x62; x63]] eq_refl)).
  - destruct (NextFrame_drains_then_advances exampleFrame
                (NewFramed [Data [x61; x62]; Fault 9; Data [x63]] sink)
                ltac:(cbn; lia) ltac:(cbn; lia))
      as (_ & _ & C & _).
    exact (proj2 (C [x61; x62] [Fault 9; Data [x63]] [] 9%nat [Data [x63]]
                    eq_refl eq_refl)).
  - destruct (NextFrame_drains_then_advances exampleFrame
                (NewFramed [Data [x61]] sink) ltac:(cbn; lia) ltac:(cbn; lia))
      as (_ & _ & _ & D & _).
    exact (proj2 (D [x61] [] eq_refl)).
  - destruct (NextFrame_drains_then_advances exampleFrame
                (NewFramed [Data [x61; x62]] sink) ltac:(cbn; lia) ltac:(cbn; lia))
      as (_ & _ & _ & _ & E).
    exact (proj2 (E [x61; x62] [] [] [] eq_refl eq_refl)).
Defined.

(** A fault that comes with the last byte of the header is met while
    draining, and the advance returns the next frame and no error; the
    stream ending inside the header is met while draining, and the
    advance goes on to [nextFrame] and returns its frame. *)
Lemma drain_failure_not_surfaced :
  (failureMet [DataFault [x61] 7; Data [x02; x00; x01; x00]] 1 = true /\
   NextFrame (freshFrame 1 0,
              NewFramed [DataFault [x61] 7; Data [x02; x00; x01; x00]] sink) =
   Done (Some (freshFrame 2 1), None,
         (mkFrame (mkSection 0 true) (mkSection 0 false) 1 0,
          NewFramed [] sink)) /\
   ~ drain_failure_aborts
       (freshFrame 1 0)
       (NewFramed [DataFault [x61] 7; Data [x02; x00; x01; x00]] sink)) /\
  (failureMet [Data [x61]] 2 = true /\
   NextFrame (freshFrame 2 0, NewFramed [Data [x61]] sink) =
   Done (Some emptyFrame, Some EOF,
         (mkFrame (mkSection 1 true) (mkSection 0 false) 2 0,
          NewFramed [] sink)) /\
   ~ drain_failure_aborts (freshFrame 2 0) (NewFramed [Data [x61]] sink)).
Proof.
  assert (N1 : NextFrame (freshFrame 1 0,
                 NewFramed [DataFault [x61] 7; Data [x02; x00; x01; x00]] sink) =
               Done (Some (freshFrame 2 1), None,
                     (mkFrame (mkSection 0 true) (mkSection 0 false) 1 0,
                      NewFramed [] sink))) by (vm_compute; reflexivity).
  assert (N2 : NextFrame (freshFrame 2 0, NewFramed [Data [x61]] sink) =
               Done (Some emptyFrame, Some EOF,
                     (mkFrame (mkSection 1 true) (mkSection 0 false) 2 0,
                      NewFramed [] sink))) by (vm_compute; reflexivity).
  split; (split; [reflexivity|split; [assumption|]]).
  - intros H. destruct (H eq_refl) as (e & st' & E).
    rewrite N1 in E. discriminate.
  - intros H. destruct (H eq_refl) as (e & st' & E).
    rewrite N2 in E. discriminate.
Qed.

(** ** Writing a frame *)

Lemma uint16_int16 z : uint16 (int16 z) = uint16 z.
Proof.
  unfold uint16, int16.
  rewrite Zminus_mod_idemp_l. f_equal. lia.
Qed.

Lemma encode16_int16 z : encode16 (int16 z) = encode16 z.
Proof. unfold encode16. rewrite uint16_int16. reflexivity. Qed.

(** C2, as the code has it.  [WriteFrame] looks at no length.  On a
    connection that accepts the writes it puts the two lengths, each
    reduced to 16 bits, then the header and the body, and returns nil,
    whatever the lengths.  It returns an error only when one of its four
    writes is refused by the connection. *)
Theorem WriteFrame_checks_no_length (header body : list byte) :
  (forall r out fl,
     WriteFrame header body (mkFramed r (mkW out []) fl) =
     (None,
      mkFramed r (mkW (out ++ encode16 (len header) ++ encode16 (len body)
                           ++ header ++ body) []) fl)) /\
  (forall c e c',
     WriteFrame header body c = (Some e, c') ->
     exists m k, In (Reject m k) (firstn 4 (wplan (wr c))) /\ e = Transport k).
Proof.
  split.
  - intros r out fl. rewrite WriteFrame_accepting, !encode16_int16. reflexivity.
  - intros [r [out plan] fl] e c'.
    unfold WriteFrame, WriteHeader, writeHeaderTo, binary_Write16, swrite, setWr.
    cbn [wr wplan wout rd hasReadInitial].
    destruct plan as [|[|m1 k1] [|[|m2 k2] [|[|m3 k3] [|[|m4 k4] t]]]];
      cbn [wr wplan wout rd hasReadInitial firstn];
      intros H; inversion H; subst;
      eexists _, _; (split; [|reflexivity]); cbn [In]; auto 6.
Qed.

Lemma WriteFrame_checks_no_length_witness :
  WriteFrame [x61] [x62] (mkFramed [] (mkW [] [Accept; Reject 1 9]) false) =
    (Some (Transport 9), mkFramed [] (mkW [x01; x00; x01] []) false) /\
  exists m k,
    In (Reject m k) (firstn 4 [Accept; Reject 1 9]) /\
    Transport 9 = Transport k.
Proof.
  split; [reflexivity|].
  exact (proj2 (WriteFrame_checks_no_length [x61] [x62])
           (mkFramed [] (mkW [] [Accept; Reject 1 9]) false)
           (Transport 9) (mkFramed [] (mkW [x01; x00; x01] []) false) eq_refl).
Defined.


Lemma oversize_not_rejected :
  ~ oversize_rejected (repeat x00 (Z.to_nat 65536)) [] (NewFramed [] sink).
Proof.
  unfold oversize_rejected. intros H.
  destruct H as [e He].
  - left. rewrite len_repeat; lia.
  - unfold NewFramed, sink in He. rewrite WriteFrame_accepting in He.
    discriminate.
Qed.


(** ** Reading a section to its end *)

Lemma ReadAll_header fuel p f c :
  (1 <= p)%nat -> 0 < bytesRemaining (Header f) ->
  (Z.to_nat (bytesRemaining (Header f)) + length (rd c) < fuel)%nat ->
  ReadAll fuel p (Read SHeader) (f, c) =
  Done (let r := bytesRemaining (Header f) in
        let '(bs, e, s') := pull (rd c) (Z.to_nat r) in
        (bs, dropEOF e,
         (setSec SHeader (mkSection (r - len bs) true) f, setRd s' c))).
Proof.
  intros Hp Hr Hf. unfold ReadAll.
  rewrite (section_loop (Read SHeader) SHeader (fun _ => True)); auto.
Qed.

Lemma ReadAll_body_settled fuel p f c :
  settled (f, c) -> (1 <= p)%nat -> 0 < bytesRemaining (Body f) ->
  (Z.to_nat (bytesRemaining (Body f)) + length (rd c) < fuel)%nat ->
  ReadAll fuel p (Read SBody) (f, c) =
  Done (let r := bytesRemaining (Body f) in
        let '(bs, e, s') := pull (rd c) (Z.to_nat r) in
        (bs, dropEOF e,
         (setSec SBody (mkSection (r - len bs) true) f, setRd s' c))).
Proof.
  intros. unfold ReadAll. rewrite body_loop_settled by assumption. reflexivity.
Qed.

(** A section with nothing left never reports its end: [ReadAll] on it
    gets [(0, nil)] for ever. *)
Lemma ReadAll_exhausted_spins : forall fuel p w f c,
  bytesRemaining (getSec w f) = 0 ->
  ReadAll fuel p (Read w) (f, c) = OutOfFuel.
Proof.
  unfold ReadAll. intros fuel p w f c H. generalize (@nil byte).
  induction fuel as [|fuel IH]; intros acc; [reflexivity|].
  cbn [readUntilError].
  rewrite Read_exhausted by exact H. cbn [bind]. apply IH.
Qed.

(** C4.  [Read] on a section with no bytes left returns 0 bytes and a
    nil error, not [io.EOF].  It touches neither the frame nor the
    connection, so every later [Read] does the same, and a caller that
    reads until the end is reported, as [ioutil.ReadAll] does, never
    comes back. *)
Theorem exhausted_section_reads_nil (w : sec) (p : nat) (f : Frame) (c : Framed) :
  bytesRemaining (getSec w f) = 0 ->
  Read w p (f, c) = Done ([], None, (f, c)) /\
  forall fuel, ReadAll fuel p (Read w) (f, c) = OutOfFuel.
Proof.
  intros H. split.
  - apply Read_exhausted. exact H.
  - intros fuel. apply ReadAll_exhausted_spins. exact H.
Qed.

Lemma exhausted_section_reads_nil_witness :
  bytesRemaining (getSec SHeader (freshFrame 0 4)) = 0 /\
  Read SHeader 16 (freshFrame 0 4, NewFramed [Data [x70; x6f; x6e; x67]] sink) =
    Done ([], None, (freshFrame 0 4, NewFramed [Data [x70; x6f; x6e; x67]] sink)) /\
  forall fuel,
    ReadAll fuel 16 (Read SHeader)
            (freshFrame 0 4, NewFramed [Data [x70; x6f; x6e; x67]] sink) =
    OutOfFuel.
Proof.
  split; [reflexivity|].
  apply (exhausted_section_reads_nil SHeader 16 (freshFrame 0 4)
           (NewFramed [Data [x70; x6f; x6e; x67]] sink)).
  reflexivity.
Defined.

Lemma lengthOf_encode v :
  lengthOf (byte_of_Z (uint16 v)) (byte_of_Z (Z.shiftr (uint16 v) 8)) = int16 v.
Proof.
  unfold lengthOf. pose proof (Uint16_PutUint16 (uint16 v)) as H.
  unfold PutUint16 in H. rewrite H. fold (uint16 (uint16 v)).
  rewrite <- (int16_uint16 v). f_equal. unfold uint16. apply Z.mod_mod. lia.
Qed.

(** The round trip for lengths from 1 to 32767: what [WriteFrame] put on
    the wire is read back, header then body, whatever the chunks the
    bytes arrive in and the buffer size of the reader. *)
Lemma roundtrip_upto_32767 (H B : list byte) (s : rstream) (wv : wstream)
      (p fuel : nat) :
  1 <= len H <= 32767 -> 1 <= len B <= 32767 ->
  WriteFrame H B (NewFramed [] sink) =
    (None, mkFramed [] (mkW (content s) []) false) ->
  faultless s = true ->
  (1 <= p)%nat -> (length H + length B + length s < fuel)%nat ->
  exists f c1 st2 st3,
    ReadInitial (NewFramed s wv) = Done (Some f, None, c1) /\
    ReadAll fuel p (Read SHeader) (f, c1) = Done (H, None, st2) /\
    ReadAll fuel p (Read SBody) st2 = Done (B, None, st3).
Proof.
  intros HH HB W F Hp Hfuel.
  unfold NewFramed, sink in W. rewrite WriteFrame_accepting in W.
  injection W as C.
  pose proof (lengthOf_encode (int16 (len H))) as L1.
  pose proof (lengthOf_encode (int16 (len B))) as L2.
  rewrite !int16_small in L1, L2 by (rewrite ?int16_small; lia).
  rewrite !int16_small in C by lia.
  assert (Hlen : length (content s) = (4 + length H + length B)%nat)
    by (rewrite <- C; cbn [length]; rewrite length_app; lia).
  destruct (pull_content s 2 F ltac:(lia)) as (s1 & P1 & F1 & C1).
  rewrite <- C in P1, C1. cbn [firstn skipn] in P1, C1.
  destruct (pull_content s1 2 F1 ltac:(rewrite C1; cbn [length]; lia))
    as (s2 & P2 & F2 & C2).
  rewrite C1 in P2, C2. cbn [firstn skipn] in P2, C2.
  destruct (pull_spec _ _ _ _ _ P1) as (_ & Hl1 & _).
  destruct (pull_spec _ _ _ _ _ P2) as (_ & Hl2 & _).
  destruct (pull_content s2 (length H) F2 ltac:(rewrite C2, length_app; lia))
    as (s3 & P3 & F3 & C3).
  rewrite C2 in P3, C3.
  rewrite firstn_app, Nat.sub_diag, firstn_all, app_nil_r in P3.
  rewrite skipn_app, Nat.sub_diag, skipn_all in C3. cbn [skipn app] in C3.
  destruct (pull_spec _ _ _ _ _ P3) as (_ & Hl3 & _).
  destruct (pull_content s3 (length B) F3 ltac:(rewrite C3; lia))
    as (s4 & P4 & F4 & C4).
  rewrite C3, firstn_all in P4.
  set (c1 := mkFramed s2 wv true).
  exists (freshFrame (len H) (len B)), c1.
  eexists _, _. split; [|split].
  - unfold ReadInitial, NewFramed. cbn [hasReadInitial].
    rewrite (nextFrame_ok (mkFramed s wv false) _ _ _ _ _ _ P1 P2), L1, L2.
    reflexivity.
  - rewrite ReadAll_header; cbn [freshFrame Header bytesRemaining rd c1];
      try (unfold len in *; lia).
    unfold len at 1. rewrite Nat2Z.id, P3, Z.sub_diag. reflexivity.
  - rewrite ReadAll_body_settled;
      cbn [setSec freshFrame Header Body bytesRemaining rd c1 setRd fst snd];
      try (unfold len in *; lia).
    + unfold len at 1. rewrite Nat2Z.id, P4. reflexivity.
    + left. cbn. lia.
Qed.

(** ** Copying a whole frame *)

Lemma copyLoop_accepting : forall fuel size N s out written,
  (1 <= size)%nat -> 0 < N ->
  (Z.to_nat N + length s < fuel)%nat ->
  forall bs e s', pull s (Z.to_nat N) = (bs, e, s') ->
  exists e0,
    copyLoop fuel size N s (mkW out []) written =
    Done (written + len bs, e0, s', mkW (out ++ bs) []) /\
    ((length bs < Z.to_nat N)%nat -> e0 = dropEOF e).
Proof.
  induction fuel as [|fuel IH];
    intros size N s out written Hs HN Hf bs0 e0 s0 Hp; [lia|].
  cbn [copyLoop]. unfold limitedRead.
  destruct (N <=? 0) eqn:E0; [lia|].
  set (k := if Z.of_nat size >? N then Z.to_nat N else size).
  assert (Hk : (1 <= k <= Z.to_nat N)%nat).
  { subst k. destruct (Z.of_nat size >? N) eqn:E; [lia|].
    rewrite Z.gtb_ltb in E. apply Z.ltb_ge in E. lia. }
  destruct (sread k s) as [[bs e] s1] eqn:R.
  pose proof (pull_step s (Z.to_nat N) k Hk _ _ _ R) as P.
  destruct e as [e|].
  - destruct P as [P Hb]. rewrite P in Hp. inversion Hp; subst; clear Hp.
    exists (dropEOF (Some e)). split.
    + destruct (0 <? len bs0) eqn:E1.
      * unfold swrite. cbn [wplan wout]. rewrite Z.eqb_refl. cbn [negb].
        destruct e; reflexivity.
      * assert (Hz : length bs0 = 0%nat)
          by (rewrite Z.ltb_ge in E1; unfold len in E1; lia).
        destruct bs0; [|discriminate]. change (len (@nil byte)) with 0.
        rewrite Z.add_0_r, app_nil_r. destruct e; reflexivity.
    + intros Hlt.
      assert (En : (length bs0 =? Z.to_nat N)%nat = false)
        by (apply Nat.eqb_neq; lia).
      rewrite En. reflexivity.
  - destruct P as (P & Hb & Hm). rewrite P in Hp.
    assert (Hlen : len bs = Z.of_nat (length bs)) by reflexivity.
    destruct (pull s1 (Z.to_nat N - length bs)) as [[bs2 e2] s2] eqn:P2.
    inversion Hp; subst; clear Hp.
    destruct (0 <? len bs) eqn:E1.
    + unfold swrite. cbn [wplan wout]. rewrite Z.eqb_refl. cbn [negb].
      destruct (Z.eq_dec (N - len bs) 0) as [Ez|Ez].
      * replace (Z.to_nat N - length bs)%nat with 0%nat in P2 by lia.
        rewrite pull_zero in P2. inversion P2; subst; clear P2.
        rewrite app_nil_r.
        destruct fuel as [|fuel]; [lia|]. cbn [copyLoop]. unfold limitedRead.
        rewrite Ez. cbn [Z.leb Z.compare]. change (len (@nil byte)) with 0.
        cbn [Z.ltb Z.compare]. exists None. split; [reflexivity|].
        intros Hlt. lia.
      * destruct (IH size (N - len bs) s1 (out ++ bs) (written + len bs)
                    Hs ltac:(lia) ltac:(lia) bs2 e0 s0) as (e1 & L & He).
        { replace (Z.to_nat (N - len bs))
            with (Z.to_nat N - length bs)%nat by lia.
          exact P2. }
        exists e1. rewrite L, len_app, <- app_assoc. split.
        -- do 4 f_equal. lia.
        -- intros Hlt. apply He. rewrite length_app in Hlt. lia.
    + assert (Hz : length bs = 0%nat) by (rewrite Z.ltb_ge in E1; lia).
      destruct bs; [|discriminate]. change (len (@nil byte)) with 0.
      rewrite Z.sub_0_r. cbn [length app] in *.
      rewrite Nat.sub_0_r in P2.
      destruct (IH size N s1 out written Hs HN ltac:(lia) bs2 e0 s0 P2)
        as (e1 & L & He).
      exists e1. split; assumption.
Qed.

Lemma CopyN_accepting out s n bs s' :
  0 < n -> pull s (Z.to_nat n) = (bs, None, s') ->
  CopyN (mkW out []) s n = Done (n, None, s', mkW (out ++ bs) []).
Proof.
  intros Hn P. unfold CopyN.
  set (size := if n <? 32768 then (if n <? 1 then 1%nat else Z.to_nat n)
               else Z.to_nat 32768).
  assert (Hsz : (1 <= size)%nat).
  { subst size. destruct (n <? 32768); [destruct (n <? 1) eqn:E; lia|lia]. }
  destruct (copyLoop_accepting (Z.to_nat n + length s + 2) size n s out 0
              Hsz Hn ltac:(lia) _ _ _ P) as (e0 & L & _).
  rewrite L. cbn [bind]. rewrite Z.add_0_l.
  destruct (pull_spec _ _ _ _ _ P) as (_ & _ & Hl).
  assert (E : len bs = n) by (unfold len; lia).
  rewrite E, Z.eqb_refl. reflexivity.
Qed.

(** [CopyTo] on a frame not read from, whose lengths add up to at most
    32767: the two prefixes and the bytes of both sections. *)
Lemma CopyTo_upto_32767 out f c bs s' :
  startedReading (Header f) = false -> startedReading (Body f) = false ->
  0 <= headerLength f -> 0 <= bodyLength f ->
  0 < headerLength f + bodyLength f <= 32767 ->
  pull (rd c) (Z.to_nat (headerLength f + bodyLength f)) = (bs, None, s') ->
  CopyTo (mkW out []) (f, c) =
  Done (None,
        mkW (out ++ encode16 (headerLength f) ++ encode16 (bodyLength f) ++ bs) [],
        (f, setRd s' c)).
Proof.
  intros H1 H2 Hh Hb Hs P. unfold CopyTo. rewrite H1, H2. cbn [orb].
  unfold writeHeaderTo, binary_Write16, swrite. cbn [wplan wout].
  rewrite int16_small by lia.
  assert (Hpos : 0 < headerLength f + bodyLength f) by lia.
  rewrite (CopyN_accepting _ _ _ _ _ Hpos P). cbn [bind].
  rewrite <- !app_assoc. reflexivity.
Qed.

Lemma CopyTo_after_read out f c :
  startedReading (Header f) || startedReading (Body f) = true ->
  CopyTo out (f, c) = Done (Some (AlreadyReadError alreadyReadFrame), out, (f, c)).
Proof. intros H. unfold CopyTo. rewrite H. reflexivity. Qed.

(** Reading a byte of a section sets its flag. *)
Lemma Read_sets_started w p st bs e st' :
  Read w p st = Done (bs, e, st') -> bs <> [] ->
  startedReading (getSec w (fst st')) = true.
Proof.
  intros R Hne.
  assert (Hplain : forall st0, readSection None w p st0 = Done (bs, e, st') ->
                   startedReading (getSec w (fst st')) = true).
  { intros [f0 c0]. unfold readSection.
    destruct (bytesRemaining (getSec w f0) =? 0);
      [intros H; inversion H; subst; contradiction|].
    cbn [bind].
    destruct (if Z.of_nat p >? bytesRemaining (getSec w f0)
              then if bytesRemaining (getSec w f0) <? 0 then Panic
                   else Done (Z.to_nat (bytesRemaining (getSec w f0)))
              else Done p) as [k| |]; cbn [bind]; try discriminate.
    destruct (sread k (rd c0)) as [[bs' err] s'].
    intros H. inversion H; subst. cbn [fst]. rewrite getSec_setSec. reflexivity. }
  destruct w; [exact (Hplain _ R)|].
  destruct (Z.eq_dec (bytesRemaining (Body (fst st))) 0) as [E|E].
  - destruct st as [f c]. cbn [fst] in E.
    rewrite (Read_exhausted SBody p f c E) in R.
    inversion R; subst. contradiction.
  - rewrite Read_body in R by exact E.
    destruct (drainSpec SHeader st) as [[e1|] st1].
    + inversion R; subst. contradiction.
    + exact (Hplain _ R).
Qed.

(** After a [Read] that delivered a byte, [CopyTo] refuses the frame and
    writes nothing. *)
Lemma CopyTo_refused_after_read w p st bs e st' out :
  Read w p st = Done (bs, e, st') -> bs <> [] ->
  CopyTo out st' = Done (Some (AlreadyReadError alreadyReadFrame), out, st').
Proof.
  intros R Hne. destruct st' as [f' c'].
  apply CopyTo_after_read.
  pose proof (Read_sets_started _ _ _ _ _ _ R Hne) as S.
  cbn [fst] in S. destruct w; cbn [getSec] in S; rewrite S.
  - reflexivity.
  - apply orb_true_r.
Qed.

(** ** Sessions *)
Module SessionFacts.
Import Session.


Lemma onFrame_conn {A} p (m : state -> res (A * state)) w a w' :
  (forall st a st', m st = Done (a, st') ->
     hasReadInitial (snd st') = hasReadInitial (snd st)) ->
  onFrame p m w = Done (a, w') ->
  hasReadInitial (conn w') = hasReadInitial (conn w).
Proof.
  intros Hm. unfold onFrame.
  destruct (nth_error (frames w) p) as [f|]; [|discriminate].
  destruct (m (f, conn w)) as [[a' st']| |] eqn:E; cbn [bind]; try discriminate.
  intros H. inversion H; subst. cbn. apply (Hm _ _ _ E).
Qed.

Lemma ReadInitial_sets_flag w p e w' :
  callReadInitial w = Done (p, e, w') -> hasReadInitial (conn w') = true.
Proof.
  unfold callReadInitial, Sectioned.ReadInitial.
  destruct (hasReadInitial (conn w)) eqn:F.
  - cbn. intros H. inversion H; subst. exact F.
  - destruct (nextFrame_total (conn w)) as (f & e1 & s1 & -> & _).
    cbn. intros H. inversion H; subst. reflexivity.
Qed.

Lemma exec_keeps_flag c w w' :
  hasReadInitial (conn w) = true -> exec c w = Done w' ->
  hasReadInitial (conn w') = true.
Proof.
  intros F. destruct c as [|p|p s k|p out|h b|hl bl|k|bs]; cbn [exec].
  - destruct (callReadInitial w) as [[[p e] w1]| |] eqn:E; cbn [bind];
      try discriminate.
    intros H. inversion H; subst. eapply ReadInitial_sets_flag; eassumption.
  - unfold callNextFrame.
    destruct (onFrame p _ w) as [[r w1]| |] eqn:E; cbn [bind]; try discriminate.
    apply onFrame_conn in E.
    + destruct (alloc (fst r) w1) as [q h]. cbn [bind].
      intros H. inversion H; subst. cbn. congruence.
    + intros st a st'.
      destruct (Sectioned.NextFrame st) as [[[nf e] st1]| |] eqn:N; cbn [bind];
        try discriminate.
      intros H. inversion H; subst. eapply NextFrame_flag; eassumption.
  - destruct (onFrame p _ w) as [[r w1]| |] eqn:E; cbn [bind]; try discriminate.
    apply onFrame_conn in E.
    + intros H. inversion H; subst. congruence.
    + intros st a st'.
      destruct (Read s k st) as [[[bs e] st1]| |] eqn:N; cbn [bind];
        try discriminate.
      intros H. inversion H; subst. eapply Read_flag; eassumption.
  - destruct (onFrame p _ w) as [[r w1]| |] eqn:E; cbn [bind]; try discriminate.
    apply onFrame_conn in E.
    + intros H. inversion H; subst. congruence.
    + intros st a st'.
      destruct (CopyTo out st) as [[[e o] st1]| |] eqn:N; cbn [bind];
        try discriminate.
      intros H. inversion H; subst. eapply CopyTo_flag; eassumption.
  - intros H. inversion H; subst. cbn. rewrite WriteFrame_flag. exact F.
  - intros H. inversion H; subst. cbn. rewrite WriteHeader_flag. exact F.
  - destruct (sread k (rd (conn w))) as [[bs e] s'].
    intros H. inversion H; subst. exact F.
  - destruct (swrite bs (wr (conn w))) as [[n e] o'].
    intros H. inversion H; subst. exact F.
Qed.

Lemma run_keeps_flag : forall cs w w',
  hasReadInitial (conn w) = true -> run cs w = Done w' ->
  hasReadInitial (conn w') = true.
Proof.
  induction cs as [|c cs IH]; intros w w' F; cbn [run].
  - intros H. inversion H; subst. exact F.
  - destruct (exec c w) as [w1| |] eqn:E; cbn [bind]; try discriminate.
    apply IH. eapply exec_keeps_flag; eassumption.
Qed.

Lemma ReadInitial_again w :
  hasReadInitial (conn w) = true ->
  callReadInitial w =
  Done (None, Some (AlreadyReadError alreadyReadInitial), w).
Proof.
  intros F. unfold callReadInitial, Sectioned.ReadInitial. rewrite F.
  cbn. destruct w. reflexivity.
Qed.

(** *** The first frame *)

(** C7.  On a session that has not read its initial frame, when the
    connection yields the four prefix bytes, [ReadInitial] returns a new
    frame with the two lengths; and after a first [ReadInitial] has
    returned, whatever is done with the session and its frames
    afterwards, [ReadInitial] returns the already-read error and leaves
    the session, the connection and every frame as they are. *)
Theorem ReadInitial_at_most_once (w : World) :
  hasReadInitial (conn w) = false ->
  (forall b0 b1 b2 b3 s1 s2,
     pull (rd (conn w)) 2 = ([b0; b1], None, s1) ->
     pull s1 2 = ([b2; b3], None, s2) ->
     callReadInitial w =
     Done (Some (length (frames w)), None,
           mkWorld (mkFramed s2 (wr (conn w)) true)
                   (frames w ++ [freshFrame (lengthOf b0 b1) (lengthOf b2 b3)]))) /\
  (forall p e w1 cs w2,
     callReadInitial w = Done (p, e, w1) ->
     run cs w1 = Done w2 ->
     callReadInitial w2 =
     Done (None, Some (AlreadyReadError alreadyReadInitial), w2)).
Proof.
  intros F. split.
  - intros b0 b1 b2 b3 s1 s2 P1 P2.
    unfold callReadInitial, Sectioned.ReadInitial. rewrite F.
    rewrite (nextFrame_ok _ _ _ _ _ _ _ P1 P2). reflexivity.
  - intros p e w1 cs w2 R1 R2.
    apply ReadInitial_again.
    apply (run_keeps_flag cs w1 w2); [|exact R2].
    eapply ReadInitial_sets_flag. exact R1.
Qed.


Lemma ReadInitial_at_most_once_witness :
  hasReadInitial (conn exampleWorld) = false /\
  callReadInitial exampleWorld =
    Done (Some 0%nat, None,
          mkWorld (mkFramed [Data [x47; x45; x54; x2f; x69]] sink true)
                  [freshFrame 3 2]) /\
  (forall w2,
     run [CRead 0%nat SHeader 2; CReadInitial; CNextFrame 0%nat]
         (mkWorld (mkFramed [Data [x47; x45; x54; x2f; x69]] sink true)
                  [freshFrame 3 2]) = Done w2 ->
     callReadInitial w2 =
     Done (None, Some (AlreadyReadError alreadyReadInitial), w2)).
Proof.
  split; [reflexivity|].
  destruct (ReadInitial_at_most_once exampleWorld eq_refl) as [A B].
  split.
  - exact (A x03 x00 x02 x00 [Data [x02; x00; x47; x45; x54; x2f; x69]]
             [Data [x47; x45; x54; x2f; x69]] eq_refl eq_refl).
  - intros w2 R.
    exact (B (Some 0%nat) None _ _ w2
             (A x03 x00 x02 x00 [Data [x02; x00; x47; x45; x54; x2f; x69]]
                [Data [x47; x45; x54; x2f; x69]] eq_refl eq_refl) R).
Defined.


Lemma fullError_transport bs e :
  match e with EOF | Transport _ => True | _ => False end ->
  forall e', fullError bs (Some e) = Some e' -> transport_error e'.
Proof.
  unfold transport_error.
  destruct e, bs; cbn; try tauto; intros _ e' H; inversion H; subst; eauto.
Qed.

Lemma pull_error_kind s n bs e s' :
  pull s n = (bs, Some e, s') ->
  match e with EOF | Transport _ => True | _ => False end.
Proof.
  intros P. destruct (pull_spec _ _ _ _ _ P) as (_ & _ & H).
  destruct e; tauto.
Qed.

Lemma nextFrame_error c f e c' :
  nextFrame c = Done (f, Some e, c') -> transport_error e.
Proof.
  destruct (pull (rd c) 2) as [[bs [e1|]] s1] eqn:P1.
  - rewrite (nextFrame_fail_first _ _ _ _ P1). intros H. inversion H; subst.
    eapply fullError_transport; [|eassumption].
    eapply pull_error_kind; eassumption.
  - destruct (pull_spec _ _ _ _ _ P1) as (_ & _ & L).
    destruct bs as [|b0 [|b1 [|]]]; cbn [length] in L; try lia.
    destruct (pull s1 2) as [[bs2 [e2|]] s2] eqn:P2.
    + rewrite (nextFrame_fail_second _ _ _ _ _ _ _ P1 P2).
      intros H. inversion H; subst.
      eapply fullError_transport; [|eassumption].
      eapply pull_error_kind; eassumption.
    + destruct (pull_spec _ _ _ _ _ P2) as (_ & _ & L2).
      destruct bs2 as [|b2 [|b3 [|]]]; cbn [length] in L2; try lia.
      rewrite (nextFrame_ok _ _ _ _ _ _ _ P1 P2). discriminate.
Qed.

(** The frame [nextFrame] returns with an error has both counters at 0:
    [readLengths] sets them only after both prefixes were read. *)
Lemma nextFrame_failed_frame c f e c' :
  nextFrame c = Done (f, Some e, c') ->
  bytesRemaining (Header f) = 0 /\ bytesRemaining (Body f) = 0.
Proof.
  destruct (pull (rd c) 2) as [[bs [e1|]] s1] eqn:P1.
  - rewrite (nextFrame_fail_first _ _ _ _ P1). intros H. inversion H; subst.
    split; reflexivity.
  - destruct (pull_spec _ _ _ _ _ P1) as (_ & _ & L).
    destruct bs as [|b0 [|b1 [|]]]; cbn [length] in L; try lia.
    destruct (pull s1 2) as [[bs2 [e2|]] s2] eqn:P2.
    + rewrite (nextFrame_fail_second _ _ _ _ _ _ _ P1 P2).
      intros H. inversion H; subst. split; reflexivity.
    + destruct (pull_spec _ _ _ _ _ P2) as (_ & _ & L2).
      destruct bs2 as [|b2 [|b3 [|]]]; cbn [length] in L2; try lia.
      rewrite (nextFrame_ok _ _ _ _ _ _ _ P1 P2). discriminate.
Qed.

(** With nothing left in either section, [NextFrame] reads the next
    pair of lengths at once. *)
Lemma NextFrame_nothing_to_drain f c :
  bytesRemaining (Header f) = 0 -> bytesRemaining (Body f) = 0 ->
  Sectioned.NextFrame (f, c) =
  (do (nf, e, c') <- nextFrame c; Done (Some nf, e, (f, c'))).
Proof.
  intros Hh Hb. rewrite NextFrame_closed. unfold drainSpec.
  cbn [getSec fst snd]. rewrite Hh. cbn [Z.gtb Z.compare].
  cbn [getSec fst snd]. rewrite Hb. reflexivity.
Qed.

Lemma nth_error_alloc (l : list Frame) (f : Frame) :
  nth_error (l ++ [f]) (length l) = Some f.
Proof.
  rewrite nth_error_app2 by lia. rewrite Nat.sub_diag. reflexivity.
Qed.

(** C9, as the code has it.  When the first [ReadInitial] of a session returns
    an error, the error is one of the connection (end of stream, or a
    fault), the flag is set all the same, and every later [ReadInitial]
    returns the already-read error.  The failed call has returned a
    frame all the same, with both counters at 0, and [NextFrame] on that
    frame drains nothing and reads the next pair of lengths from the
    connection. *)
Theorem ReadInitial_failure_sets_flag (w : World) :
  hasReadInitial (conn w) = false ->
  forall p e w1,
    callReadInitial w = Done (p, Some e, w1) ->
    transport_error e /\
    hasReadInitial (conn w1) = true /\
    (forall cs w2,
       run cs w1 = Done w2 ->
       callReadInitial w2 =
       Done (None, Some (AlreadyReadError alreadyReadInitial), w2)) /\
    exists fr,
      p = Some (length (frames w)) /\
      nth_error (frames w1) (length (frames w)) = Some fr /\
      bytesRemaining (Header fr) = 0 /\ bytesRemaining (Body fr) = 0 /\
      Sectioned.NextFrame (fr, conn w1) =
      (do (nf, e', c') <- nextFrame (conn w1); Done (Some nf, e', (fr, c'))).
Proof.
  intros F p e w1 R.
  pose proof (ReadInitial_sets_flag _ _ _ _ R) as F1.
  revert R. unfold callReadInitial, Sectioned.ReadInitial. rewrite F.
  destruct (nextFrame (conn w)) as [[[f e1] c1]| |] eqn:N; cbn [bind alloc];
    try discriminate.
  intros H. inversion H; subst; clear H.
  destruct (nextFrame_failed_frame _ _ _ _ N) as [Hh Hb].
  split; [eapply nextFrame_error; exact N|].
  split; [exact F1|]. split.
  - intros cs w2 R2. apply ReadInitial_again.
    eapply run_keeps_flag; [|exact R2]. exact F1.
  - exists f. cbn [frames conn].
    split; [reflexivity|]. split; [apply nth_error_alloc|].
    split; [exact Hh|]. split; [exact Hb|].
    apply NextFrame_nothing_to_drain; assumption.
Qed.


Lemma ReadInitial_failure_sets_flag_witness :
  hasReadInitial (conn faultyWorld) = false /\
  callReadInitial faultyWorld =
    Done (Some 0%nat, Some (Transport 5),
          mkWorld (mkFramed [Data [x00; x02; x00]] sink true) [emptyFrame]) /\
  transport_error (Transport 5) /\
  hasReadInitial
    (conn (mkWorld (mkFramed [Data [x00; x02; x00]] sink true) [emptyFrame])) = true /\
  (forall cs w2,
     run cs (mkWorld (mkFramed [Data [x00; x02; x00]] sink true) [emptyFrame])
       = Done w2 ->
     callReadInitial w2 =
     Done (None, Some (AlreadyReadError alreadyReadInitial), w2)) /\
  exists fr,
    Some 0%nat = Some (length (frames faultyWorld)) /\
    nth_error [emptyFrame] (length (frames faultyWorld)) = Some fr /\
    bytesRemaining (Header fr) = 0 /\ bytesRemaining (Body fr) = 0 /\
    Sectioned.NextFrame (fr, mkFramed [Data [x00; x02; x00]] sink true) =
    (do (nf, e', c') <- nextFrame (mkFramed [Data [x00; x02; x00]] sink true);
     Done (Some nf, e', (fr, c'))).
Proof.
  split; [reflexivity|]. split; [reflexivity|].
  exact (ReadInitial_failure_sets_flag faultyWorld eq_refl (Some 0%nat) (Transport 5)
           (mkWorld (mkFramed [Data [x00; x02; x00]] sink true) [emptyFrame])
           eq_refl).
Defined.

(** The first [ReadInitial] fails on a fault of the connection; the
    frame it returned all the same is frame 0, and [NextFrame] on it
    returns the first frame of the stream, lengths 3 and 2, with no
    error. *)
Lemma first_frame_after_failure :
  callReadInitial retryWorld =
    Done (Some 0%nat, Some (Transport 5),
          mkWorld (mkFramed [Data [x03; x00; x02; x00; x47; x45; x54; x2f; x69]]
                            sink true)
                  [emptyFrame]) /\
  callNextFrame 0%nat
    (mkWorld (mkFramed [Data [x03; x00; x02; x00; x47; x45; x54; x2f; x69]]
                       sink true)
             [emptyFrame]) =
    Done (Some 1%nat, None,
          mkWorld (mkFramed [Data [x47; x45; x54; x2f; x69]] sink true)
                  [emptyFrame; freshFrame 3 2]) /\
  ~ first_frame_lost retryWorld.
Proof.
  assert (R : callReadInitial retryWorld =
    Done (Some 0%nat, Some (Transport 5),
          mkWorld (mkFramed [Data [x03; x00; x02; x00; x47; x45; x54; x2f; x69]]
                            sink true)
                  [emptyFrame])) by (vm_compute; reflexivity).
  assert (N : callNextFrame 0%nat
    (mkWorld (mkFramed [Data [x03; x00; x02; x00; x47; x45; x54; x2f; x69]]
                       sink true)
             [emptyFrame]) =
    Done (Some 1%nat, None,
          mkWorld (mkFramed [Data [x47; x45; x54; x2f; x69]] sink true)
                  [emptyFrame; freshFrame 3 2])) by (vm_compute; reflexivity).
  split; [exact R|]. split; [exact N|].
  intros H.
  destruct (H _ _ _ R [] _ eq_refl) as [_ H2].
  exact (H2 _ _ _ N).
Qed.

End SessionFacts.

(** * Further properties *)

Import More.

(** ** Helpers *)

Lemma pull_short : forall s n,
  faultless s = true -> (length (content s) < n)%nat ->
  pull s n = (content s, Some EOF, []).
Proof.
  induction s as [|[cs|c|cs c] s IH]; intros n F Hn.
  - rewrite pull_nil by lia. reflexivity.
  - cbn [content faultless] in *. rewrite length_app in Hn.
    rewrite pull_data_le by lia.
    rewrite (IH (n - length cs)%nat F) by lia. reflexivity.
  - discriminate.
  - discriminate.
Qed.

Lemma encode16_bytes v :
  encode16 v = [byte_of_Z (uint16 v); byte_of_Z (Z.shiftr (uint16 v) 8)].
Proof. reflexivity. Qed.

(** Decoding the two prefixes from a faultless connection. *)
Lemma prefixes_decode c hl bl rest :
  faultless (rd c) = true ->
  content (rd c) = encode16 hl ++ encode16 bl ++ rest ->
  exists s2,
    nextFrame c = Done (freshFrame (int16 hl) (int16 bl), None, setRd s2 c) /\
    faultless s2 = true /\ content s2 = rest /\
    (length s2 <= length (rd c))%nat.
Proof.
  intros F C. rewrite !encode16_bytes in C. cbn [app] in C.
  destruct (pull_content (rd c) 2 F ltac:(rewrite C; cbn [length]; lia))
    as (s1 & P1 & F1 & C1).
  rewrite C in P1, C1. cbn [firstn skipn] in P1, C1.
  destruct (pull_content s1 2 F1 ltac:(rewrite C1; cbn [length]; lia))
    as (s2 & P2 & F2 & C2).
  rewrite C1 in P2, C2. cbn [firstn skipn] in P2, C2.
  destruct (pull_spec _ _ _ _ _ P1) as (_ & L1 & _).
  destruct (pull_spec _ _ _ _ _ P2) as (_ & L2 & _).
  exists s2. rewrite (nextFrame_ok _ _ _ _ _ _ _ P1 P2), !lengthOf_encode.
  repeat split; try assumption. lia.
Qed.

Lemma len_length {A} (l : list A) : Z.to_nat (len l) = length l.
Proof. unfold len. apply Nat2Z.id. Qed.

Lemma frameBytes_written h b r out fl :
  WriteFrame h b (mkFramed r (mkW out []) fl) =
  (None, mkFramed r (mkW (out ++ frameBytes h b) []) fl).
Proof.
  rewrite WriteFrame_accepting, !encode16_int16. reflexivity.
Qed.

(** Taking [n] bytes that are there. *)
Lemma pull_front s a rest :
  faultless s = true -> content s = a ++ rest ->
  exists s', pull s (length a) = (a, None, s') /\
             faultless s' = true /\ content s' = rest /\
             (length s' <= length s)%nat.
Proof.
  intros F C.
  destruct (pull_content s (length a) F ltac:(rewrite C, length_app; lia))
    as (s' & P & F' & C').
  rewrite C in P, C'.
  rewrite firstn_app, Nat.sub_diag, firstn_all, app_nil_r in P.
  rewrite skipn_app, Nat.sub_diag, skipn_all in C'. cbn [skipn app] in C'.
  destruct (pull_spec _ _ _ _ _ P) as (_ & L & _).
  exists s'. auto.
Qed.

(** ** Frames of the sectioned framing, written and read back *)

(** X1.  A header and a body of 1 to 32767 bytes each: [WriteFrame]
    puts [frameBytes] on the wire, and a peer that receives these bytes,
    in whatever chunks and followed by whatever else, gets the header
    and then the body back by [ReadInitial] and reading each section to
    its end, with any buffer size; what follows the frame is left on the
    connection. *)
Theorem frame_roundtrip (H B rest : list byte) (s : rstream) (wv : wstream)
        (p fuel : nat) :
  1 <= len H <= 32767 -> 1 <= len B <= 32767 ->
  faultless s = true -> content s = frameBytes H B ++ rest ->
  (1 <= p)%nat -> (length H + length B + length s < fuel)%nat ->
  WriteFrame H B (NewFramed [] sink) =
    (None, mkFramed [] (mkW (frameBytes H B) []) false) /\
  exists f c1 st2 st3,
    ReadInitial (NewFramed s wv) = Done (Some f, None, c1) /\
    ReadAll fuel p (Read SHeader) (f, c1) = Done (H, None, st2) /\
    ReadAll fuel p (Read SBody) st2 = Done (B, None, st3) /\
    content (rd (snd st3)) = rest.
Proof.
  intros HH HB F C Hp Hfuel. split; [apply frameBytes_written|].
  unfold frameBytes in C. rewrite <- !app_assoc in C.
  destruct (prefixes_decode (NewFramed s wv) (len H) (len B) _ F C)
    as (s2 & N & F2 & C2 & L2).
  rewrite !int16_small in N by lia. cbn [rd NewFramed] in L2.
  destruct (pull_front s2 H _ F2 C2) as (s3 & P3 & F3 & C3 & L3).
  destruct (pull_front s3 B _ F3 C3) as (s4 & P4 & F4 & C4 & L4).
  exists (freshFrame (len H) (len B)), (mkFramed s2 wv true).
  eexists _, _. split; [|split; [|split]].
  - unfold ReadInitial. cbn [hasReadInitial NewFramed]. rewrite N. reflexivity.
  - rewrite ReadAll_header; cbn [freshFrame Header bytesRemaining rd];
      rewrite ?len_length; try lia.
    rewrite P3, Z.sub_diag. reflexivity.
  - rewrite ReadAll_body_settled;
      cbn [setSec freshFrame Header Body bytesRemaining rd setRd fst snd];
      rewrite ?len_length; try lia.
    + rewrite P4. reflexivity.
    + left. cbn. lia.
  - cbn [snd setRd rd]. exact C4.
Qed.

Lemma frame_roundtrip_witness :
  exists f c1 st2 st3,
    ReadInitial (NewFramed [Data [x03; x00; x02]; Data [x00; x47; x45];
                            Data [x54; x2f; x69; xff]] sink)
      = Done (Some f, None, c1) /\
    ReadAll 9 2 (Read SHeader) (f, c1) = Done ([x47; x45; x54], None, st2) /\
    ReadAll 9 2 (Read SBody) st2 = Done ([x2f; x69], None, st3) /\
    content (rd (snd st3)) = [xff].
Proof.
  exact (proj2 (frame_roundtrip [x47; x45; x54] [x2f; x69] [xff]
                  [Data [x03; x00; x02]; Data [x00; x47; x45];
                   Data [x54; x2f; x69; xff]] sink 2 9
                  ltac:(vm_compute; split; discriminate)
                  ltac:(vm_compute; split; discriminate)
                  eq_refl eq_refl ltac:(lia) ltac:(cbn; lia))).
Defined.

(** X2.  A frame whose two lengths add up to at most 32767, not read
    from yet: [CopyTo] into a writer that accepts everything appends
    exactly the bytes [WriteFrame] had produced for it, and leaves the
    connection at the first byte after the frame. *)
Theorem CopyTo_reproduces_frame (H B rest out : list byte) (s : rstream)
        (wv : wstream) :
  len H + len B <= 32767 ->
  faultless s = true -> content s = frameBytes H B ++ rest ->
  exists f c1 c2,
    ReadInitial (NewFramed s wv) = Done (Some f, None, c1) /\
    CopyTo (mkW out []) (f, c1) =
      Done (None, mkW (out ++ frameBytes H B) [], (f, c2)) /\
    content (rd c2) = rest.
Proof.
  intros Hs F C.
  assert (H0 : 0 <= len H) by apply len_nonneg.
  assert (B0 : 0 <= len B) by apply len_nonneg.
  unfold frameBytes in C. rewrite <- !app_assoc in C.
  destruct (prefixes_decode (NewFramed s wv) (len H) (len B) _ F C)
    as (s2 & N & F2 & C2 & L2).
  rewrite !int16_small in N by lia.
  exists (freshFrame (len H) (len B)), (mkFramed s2 wv true).
  destruct (Z.eq_dec (len H + len B) 0) as [Z0|Z0].
  - assert (HE : H = []) by (destruct H; [reflexivity|unfold len in *; cbn [length] in *; lia]).
    assert (BE : B = []) by (destruct B; [reflexivity|unfold len in *; cbn [length] in *; lia]).
    subst. exists (mkFramed s2 wv true). split; [|split].
    + unfold ReadInitial. cbn [hasReadInitial NewFramed]. rewrite N. reflexivity.
    + unfold CopyTo. cbn [freshFrame Header Body startedReading orb
                          headerLength bodyLength].
      unfold writeHeaderTo, binary_Write16, swrite. cbn [wplan wout].
      rewrite CopyN_nonpositive by (vm_compute; discriminate).
      cbn [bind rd]. unfold frameBytes. rewrite <- !app_assoc.
      destruct s2; reflexivity.
    + exact C2.
  - rewrite app_assoc in C2.
    destruct (pull_front s2 (H ++ B) _ F2 C2) as (s3 & P3 & F3 & C3 & L3).
    exists (setRd s3 (mkFramed s2 wv true)). split; [|split].
    + unfold ReadInitial. cbn [hasReadInitial NewFramed]. rewrite N. reflexivity.
    + assert (P : pull s2 (Z.to_nat (len H + len B)) = (H ++ B, None, s3)).
      { rewrite <- P3. f_equal. rewrite length_app. unfold len. lia. }
      rewrite (CopyTo_upto_32767 out (freshFrame (len H) (len B))
                 (mkFramed s2 wv true) (H ++ B) s3);
        cbn [freshFrame Header Body startedReading headerLength bodyLength rd];
        try reflexivity; try lia; try exact P.
    + exact C3.
Qed.

Lemma CopyTo_reproduces_frame_witness :
  exists f c1 c2,
    ReadInitial (NewFramed [Data [x01; x00; x02; x00; x61]; Data [x62; x63; x64]]
                           sink) = Done (Some f, None, c1) /\
    CopyTo (mkW [xee] []) (f, c1) =
      Done (None, mkW ([xee] ++ frameBytes [x61] [x62; x63]) [], (f, c2)) /\
    content (rd c2) = [x64].
Proof.
  exact (CopyTo_reproduces_frame [x61] [x62; x63] [x64] [xee]
           [Data [x01; x00; x02; x00; x61]; Data [x62; x63; x64]] sink
           ltac:(vm_compute; discriminate) eq_refl eq_refl).
Defined.

Lemma Read_header_marks p f c bs e st' :
  Read SHeader p (f, c) = Done (bs, e, st') ->
  bytesRemaining (Header f) <> 0 ->
  startedReading (Header (fst st')) = true.
Proof.
  unfold Read, readSection. cbn [getSec]. intros R Hne.
  destruct (bytesRemaining (Header f) =? 0) eqn:E0;
    [apply Z.eqb_eq in E0; contradiction|].
  cbn [bind] in R.
  destruct (if Z.of_nat p >? bytesRemaining (Header f)
            then if bytesRemaining (Header f) <? 0 then Panic
                 else Done (Z.to_nat (bytesRemaining (Header f)))
            else Done p) as [k| |]; cbn [bind] in R; try discriminate.
  destruct (sread k (rd c)) as [[bs' err] s']. inversion R; subst. reflexivity.
Qed.

(** X3.  Once a [Read] has delivered a byte of either section, or has
    been made at all on a header that still had bytes to give (even if
    it delivered nothing, as at end of stream), [CopyTo] returns the
    already-read error, writes nothing and reads nothing. *)
Theorem CopyTo_refused_once_read (w : sec) (p : nat) (st st' : state)
        (bs : list byte) (e : option error) (out : wstream) :
  Read w p st = Done (bs, e, st') ->
  bs <> [] \/ (w = SHeader /\ bytesRemaining (Header (fst st)) <> 0) ->
  CopyTo out st' = Done (Some (AlreadyReadError alreadyReadFrame), out, st').
Proof.
  intros R [Hne|[-> Hne]].
  - exact (CopyTo_refused_after_read _ _ _ _ _ _ out R Hne).
  - destruct st as [f c], st' as [f' c']. apply CopyTo_after_read.
    pose proof (Read_header_marks _ _ _ _ _ _ R Hne) as S.
    cbn [fst] in S. rewrite S. reflexivity.
Qed.

Lemma CopyTo_refused_once_read_witness :
  Read SHeader 8 (freshFrame 2 1, NewFramed [] sink) =
    Done ([], Some EOF,
          (mkFrame (mkSection 2 true) (mkSection 1 false) 2 1, NewFramed [] sink)) /\
  CopyTo sink (mkFrame (mkSection 2 true) (mkSection 1 false) 2 1, NewFramed [] sink) =
  Done (Some (AlreadyReadError alreadyReadFrame), sink,
        (mkFrame (mkSection 2 true) (mkSection 1 false) 2 1, NewFramed [] sink)).
Proof.
  split; [reflexivity|].
  apply (CopyTo_refused_once_read SHeader 8 (freshFrame 2 1, NewFramed [] sink)
           _ [] (Some EOF) sink eq_refl).
  right. split; [reflexivity|cbn; discriminate].
Defined.

(** X4.  A frame not read from yet, lengths adding up to [n] with
    [0 < n <= 32767], on a faultless connection that ends before [n]
    bytes: [CopyTo] writes the prefixes and the bytes there are, and
    returns [io.EOF]. *)
Theorem CopyTo_truncated (out : list byte) (f : Frame) (c : Framed) :
  startedReading (Header f) = false -> startedReading (Body f) = false ->
  0 <= headerLength f -> 0 <= bodyLength f ->
  headerLength f + bodyLength f <= 32767 ->
  faultless (rd c) = true ->
  len (content (rd c)) < headerLength f + bodyLength f ->
  CopyTo (mkW out []) (f, c) =
  Done (Some EOF,
        mkW (out ++ encode16 (headerLength f) ++ encode16 (bodyLength f)
                 ++ content (rd c)) [],
        (f, setRd [] c)).
Proof.
  intros H1 H2 Hh Hb Hs F Hl. unfold CopyTo. rewrite H1, H2. cbn [orb].
  unfold writeHeaderTo, binary_Write16, swrite. cbn [wplan wout].
  assert (Hn : 0 <= len (content (rd c))) by apply len_nonneg.
  rewrite int16_small by lia.
  set (n := headerLength f + bodyLength f) in *.
  unfold CopyN.
  set (size := if n <? 32768 then (if n <? 1 then 1%nat else Z.to_nat n)
               else Z.to_nat 32768).
  assert (Hsz : (1 <= size)%nat).
  { subst size. destruct (n <? 32768); [destruct (n <? 1) eqn:E; lia|lia]. }
  assert (P : pull (rd c) (Z.to_nat n) = (content (rd c), Some EOF, []))
    by (apply pull_short; [assumption|unfold len in Hl; lia]).
  match goal with
  | |- context [copyLoop ?fuel size n (rd c) (mkW ?o []) 0] =>
      destruct (copyLoop_accepting fuel size n (rd c) o 0
                  Hsz ltac:(lia) ltac:(lia) _ _ _ P) as (e0 & L & He)
  end.
  rewrite L, He by (unfold len in Hl; lia).
  cbn [bind dropEOF]. rewrite Z.add_0_l.
  destruct (len (content (rd c)) =? n) eqn:E1; [lia|].
  destruct (len (content (rd c)) <? n) eqn:E2; [|lia].
  cbn [andb is_nil]. rewrite <- !app_assoc. reflexivity.
Qed.

Lemma CopyTo_truncated_witness :
  CopyTo (mkW [] []) (freshFrame 2 2, NewFramed [Data [x61; x62]; Data [x63]] sink) =
  Done (Some EOF, mkW [x02; x00; x02; x00; x61; x62; x63] [],
        (freshFrame 2 2, NewFramed [] sink)).
Proof.
  exact (CopyTo_truncated [] (freshFrame 2 2)
           (NewFramed [Data [x61; x62]; Data [x63]] sink)
           eq_refl eq_refl ltac:(cbn; lia) ltac:(cbn; lia) ltac:(cbn; lia)
           eq_refl ltac:(vm_compute; reflexivity)).
Defined.

(** ** Skipping what was not read *)

(** Draining a section whose bytes are all on a faultless connection. *)
Lemma drainSpec_front w f c a rest :
  0 <= bytesRemaining (getSec w f) ->
  len a = bytesRemaining (getSec w f) ->
  faultless (rd c) = true -> content (rd c) = a ++ rest ->
  exists f' s',
    drainSpec w (f, c) = (None, (f', setRd s' c)) /\
    bytesRemaining (getSec w f') = 0 /\
    getSec (other w) f' = getSec (other w) f /\
    faultless s' = true /\ content s' = rest /\
    (length s' <= length (rd c))%nat.
Proof.
  intros H0 Hl F C.
  destruct (pull_front (rd c) a rest F C) as (s' & P & F' & C' & L').
  assert (E : length a = Z.to_nat (bytesRemaining (getSec w f)))
    by (rewrite <- Hl; symmetry; apply len_length).
  rewrite E in P.
  destruct (drainSpec_pull w f c _ _ _ P) as (f' & D & R & O).
  exists f', s'. cbn [dropEOF] in D. repeat split; try assumption. lia.
Qed.

(** Advancing past what is unread, to a frame whose prefixes follow. *)
Lemma NextFrame_skip (f : Frame) (c : Framed)
      (hbytes bbytes rest : list byte) (hl bl : Z) :
  len hbytes = bytesRemaining (Header f) ->
  len bbytes = bytesRemaining (Body f) ->
  faultless (rd c) = true ->
  content (rd c) = hbytes ++ bbytes ++ encode16 hl ++ encode16 bl ++ rest ->
  exists f' c',
    NextFrame (f, c) =
      Done (Some (freshFrame (int16 hl) (int16 bl)), None, (f', c')) /\
    bytesRemaining (Header f') = 0 /\ bytesRemaining (Body f') = 0 /\
    faultless (rd c') = true /\ content (rd c') = rest.
Proof.
  intros Hh Hb F C.
  pose proof (len_nonneg hbytes). pose proof (len_nonneg bbytes).
  destruct (drainSpec_front SHeader f c hbytes _ ltac:(cbn [getSec]; lia) Hh F C)
    as (f1 & s1 & D1 & R1 & O1 & F1 & C1 & L1).
  cbn [getSec other] in R1, O1.
  destruct (drainSpec_front SBody f1 (setRd s1 c) bbytes _
              ltac:(cbn [getSec]; rewrite O1; lia)
              ltac:(cbn [getSec]; rewrite O1; exact Hb) F1 C1)
    as (f2 & s2 & D2 & R2 & O2 & F2 & C2 & L2).
  cbn [getSec other] in R2, O2. rewrite setRd_setRd in D2.
  destruct (prefixes_decode (setRd s2 c) hl bl rest F2 C2)
    as (s3 & N & F3 & C3 & L3).
  exists f2, (setRd s3 c).
  rewrite NextFrame_closed, D1, D2. cbn [fst snd]. rewrite N. cbn [bind].
  rewrite setRd_setRd. rewrite O2, R1, R2. auto.
Qed.

(** X5.  [NextFrame] from a frame with [hr] header bytes and [br] body
    bytes still unread (all, some or none of them), on a faultless
    connection that holds these bytes and then the prefixes of the next
    frame: the unread bytes are skipped, whatever they are, and the next
    frame has the lengths decoded from the prefixes; the old frame ends
    with both counters at 0. *)
Theorem NextFrame_skips_unread (f : Frame) (c : Framed)
        (hbytes bbytes rest : list byte) (hl bl : Z) :
  len hbytes = bytesRemaining (Header f) ->
  len bbytes = bytesRemaining (Body f) ->
  faultless (rd c) = true ->
  content (rd c) = hbytes ++ bbytes ++ encode16 hl ++ encode16 bl ++ rest ->
  exists f' c',
    NextFrame (f, c) =
      Done (Some (freshFrame (int16 hl) (int16 bl)), None, (f', c')) /\
    bytesRemaining (Header f') = 0 /\ bytesRemaining (Body f') = 0 /\
    faultless (rd c') = true /\ content (rd c') = rest.
Proof.
  intros Hh Hb F C.
  destruct (NextFrame_skip f c hbytes bbytes rest hl bl Hh Hb F C)
    as (f' & c' & N & Rest).
  exists f', c'. split; [exact N|exact Rest].
Qed.

Lemma NextFrame_skips_unread_witness :
  exists f' c',
    NextFrame (mkFrame (mkSection 1 true) (mkSection 2 false) 3 2,
               NewFramed [Data [x54; x2f]; Data [x69; x00; x00; x04; x00; x70]] sink) =
      Done (Some (freshFrame 0 4), None, (f', c')) /\
    bytesRemaining (Header f') = 0 /\ bytesRemaining (Body f') = 0 /\
    faultless (rd c') = true /\ content (rd c') = [x70].
Proof.
  exact (NextFrame_skips_unread
           (mkFrame (mkSection 1 true) (mkSection 2 false) 3 2)
           (NewFramed [Data [x54; x2f]; Data [x69; x00; x00; x04; x00; x70]] sink)
           [x54] [x2f; x69] [x70] 0 4 eq_refl eq_refl eq_refl eq_refl).
Defined.





(** ** The counters *)

Lemma sread_length k s bs e s' :
  sread k s = (bs, e, s') -> (length bs <= k)%nat.
Proof.
  destruct s as [|[cs|c|cs c] s0]; cbn [sread]; intros H.
  - inversion H; subst. cbn. lia.
  - destruct (length cs <=? k)%nat eqn:E; inversion H; subst.
    + apply Nat.leb_le in E. exact E.
    + rewrite length_firstn. lia.
  - inversion H; subst. cbn. lia.
  - destruct (length cs <=? k)%nat eqn:E; inversion H; subst.
    + apply Nat.leb_le in E. exact E.
    + rewrite length_firstn. lia.
Qed.

Lemma plain_read_range w p f c :
  0 <= bytesRemaining (getSec w f) ->
  exists bs e f' c',
    readSection None w p (f, c) = Done (bs, e, (f', c')) /\
    len bs <= Z.of_nat p /\
    bytesRemaining (getSec w f') = bytesRemaining (getSec w f) - len bs /\
    0 <= bytesRemaining (getSec w f') /\
    getSec (other w) f' = getSec (other w) f /\
    (bytesRemaining (getSec w f) <> 0 -> bytesRemaining (getSec w f') = 0 ->
     e = Some EOF).
Proof.
  intros H0.
  destruct (Z.eq_dec (bytesRemaining (getSec w f)) 0) as [E|E].
  - exists [], None, f, c. unfold readSection. rewrite E.
    change (len (@nil byte)) with 0. cbn. repeat split; try lia.
  - rewrite readSection_plain by lia. cbv zeta.
    set (r := bytesRemaining (getSec w f)) in *.
    set (k := if Z.of_nat p >? r then Z.to_nat r else p).
    assert (Hk : Z.of_nat k <= r /\ (k <= p)%nat).
    { subst k. destruct (Z.of_nat p >? r) eqn:G; [lia|].
      rewrite Z.gtb_ltb in G. apply Z.ltb_ge in G. lia. }
    destruct (sread k (rd c)) as [[bs e] s'] eqn:R.
    pose proof (sread_length _ _ _ _ _ R) as L.
    eexists _, _, _, _. split; [reflexivity|].
    rewrite getSec_setSec. cbn [bytesRemaining]. unfold len.
    repeat split; try lia.
    + destruct w; reflexivity.
    + intros _ Hz. fold (len bs) in Hz. apply Z.eqb_eq in Hz.
      fold (len bs). rewrite Hz. reflexivity.
Qed.

(** X8.  On a frame whose two counters are not negative, a [Read] of
    either section returns; it delivers at most [len(p)] bytes, lowers
    the section's counter by exactly the number of bytes delivered and
    never below 0, never raises the other counter, and reports [io.EOF]
    on the call that brings the counter to 0. *)
Theorem Read_keeps_counters_in_range (w : sec) (p : nat) (f : Frame) (c : Framed) :
  0 <= bytesRemaining (Header f) -> 0 <= bytesRemaining (Body f) ->
  exists bs e f' c',
    Read w p (f, c) = Done (bs, e, (f', c')) /\
    len bs <= Z.of_nat p /\
    bytesRemaining (getSec w f') = bytesRemaining (getSec w f) - len bs /\
    0 <= bytesRemaining (getSec w f') /\
    0 <= bytesRemaining (getSec (other w) f')
      <= bytesRemaining (getSec (other w) f) /\
    (bytesRemaining (getSec w f) <> 0 -> bytesRemaining (getSec w f') = 0 ->
     e = Some EOF).
Proof.
  intros Hh Hb. destruct w.
  - destruct (plain_read_range SHeader p f c Hh)
      as (bs & e & f' & c' & R & L & D & P & O & E).
    exists bs, e, f', c'. cbn [getSec other] in *. rewrite O.
    repeat split; try assumption; lia.
  - destruct (Z.eq_dec (bytesRemaining (Body f)) 0) as [Z0|Z0].
    + exists [], None, f, c. rewrite (Read_exhausted SBody p f c Z0).
      change (len (@nil byte)) with 0. cbn [getSec other].
      repeat split; try lia.
    + rewrite Read_body by exact Z0.
      destruct (drainSpec SHeader (f, c)) as [e1 [f1 c1]] eqn:D.
      assert (Hf1 : Body f1 = Body f /\
                    0 <= bytesRemaining (Header f1) <= bytesRemaining (Header f)).
      { revert D. unfold drainSpec. cbn [getSec].
        destruct (bytesRemaining (Header f) >? 0) eqn:G.
        - destruct (pull (rd c) _) as [[bs1 e'] s1] eqn:P.
          destruct (pull_spec _ _ _ _ _ P) as (La & _).
          intros D. inversion D; subst. cbn. unfold len. split; [reflexivity|lia].
        - intros D. inversion D; subst. split; [reflexivity|lia]. }
      destruct Hf1 as [HB Hr].
      destruct e1 as [e1|].
      * exists [], (Some e1), f1, c1. change (len (@nil byte)) with 0.
        cbn [getSec other]. rewrite HB.
        repeat split; try lia.
      * destruct (plain_read_range SBody p f1 c1 ltac:(cbn [getSec]; rewrite HB; lia))
          as (bs & e & f' & c' & R & L & Dd & P & O & E).
        exists bs, e, f', c'. cbn [getSec other] in *. rewrite O.
        rewrite HB in Dd, E. repeat split; try assumption; lia.
Qed.

Lemma Read_keeps_counters_in_range_witness :
  exists bs e f' c',
    Read SBody 8 (freshFrame 1 2, NewFramed [Data [x61; x62; x63; x64]] sink) =
      Done (bs, e, (f', c')) /\
    len bs <= Z.of_nat 8 /\
    bytesRemaining (getSec SBody f') = 2 - len bs /\
    0 <= bytesRemaining (getSec SBody f') /\
    0 <= bytesRemaining (getSec (other SBody) f') <= 1 /\
    (2 <> 0 -> bytesRemaining (getSec SBody f') = 0 -> e = Some EOF).
Proof.
  exact (Read_keeps_counters_in_range SBody 8 (freshFrame 1 2)
           (NewFramed [Data [x61; x62; x63; x64]] sink)
           ltac:(cbn; lia) ltac:(cbn; lia)).
Defined.

(** ** The length prefixes *)

(** X9.  Any two [int16] lengths written by [WriteHeader], negative ones
    included, are read back by [nextFrame] as the same two numbers, and
    become the counters of the two sections; exactly four bytes are
    written and taken. *)
Theorem WriteHeader_nextFrame_roundtrip (hl bl : Z) (r : rstream)
        (out rest : list byte) (fl : bool) (c : Framed) :
  -32768 <= hl <= 32767 -> -32768 <= bl <= 32767 ->
  faultless (rd c) = true ->
  content (rd c) = encode16 hl ++ encode16 bl ++ rest ->
  WriteHeader hl bl (mkFramed r (mkW out []) fl) =
    (None, mkFramed r (mkW (out ++ encode16 hl ++ encode16 bl) []) fl) /\
  length (encode16 hl ++ encode16 bl) = 4%nat /\
  exists s2,
    nextFrame c = Done (freshFrame hl bl, None, setRd s2 c) /\
    content s2 = rest.
Proof.
  intros Hh Hb F C. split; [|split; [reflexivity|]].
  - unfold WriteHeader, writeHeaderTo, binary_Write16, swrite, setWr.
    cbn [wr wplan wout rd hasReadInitial]. rewrite <- app_assoc. reflexivity.
  - destruct (prefixes_decode c hl bl rest F C) as (s2 & N & _ & C2 & _).
    rewrite !int16_small in N by lia. eauto.
Qed.

Lemma WriteHeader_nextFrame_roundtrip_witness :
  WriteHeader (-2) 5 (mkFramed [] (mkW [] []) false) =
    (None, mkFramed [] (mkW [xfe; xff; x05; x00] []) false) /\
  exists s2,
    nextFrame (NewFramed [Data [xfe; xff; x05]; Data [x00; x61]] sink) =
      Done (freshFrame (-2) 5, None,
            setRd s2 (NewFramed [Data [xfe; xff; x05]; Data [x00; x61]] sink)) /\
    content s2 = [x61].
Proof.
  destruct (WriteHeader_nextFrame_roundtrip (-2) 5 [] [] [x61] false
              (NewFramed [Data [xfe; xff; x05]; Data [x00; x61]] sink)
              ltac:(lia) ltac:(lia) eq_refl eq_refl) as (W & _ & N).
  split; [exact W|exact N].
Defined.

(** X10.  On a faultless connection that ends after fewer than the four
    prefix bytes, [nextFrame] returns a frame whose two counters are 0
    together with an error: [io.EOF] when 0 or 2 bytes were there (the
    connection ended before a prefix began), [io.ErrUnexpectedEOF] when
    1 or 3 were (it ended inside a prefix). *)
Theorem nextFrame_on_short_stream (c : Framed) :
  faultless (rd c) = true -> (length (content (rd c)) < 4)%nat ->
  exists f,
    nextFrame c =
      Done (f, Some (shortPrefixError (length (content (rd c)))), setRd [] c) /\
    bytesRemaining (Header f) = 0 /\ bytesRemaining (Body f) = 0.
Proof.
  intros F L.
  destruct (le_lt_dec 2 (length (content (rd c)))) as [G|G].
  - destruct (pull_content (rd c) 2 F G) as (s1 & P1 & F1 & C1).
    destruct (content (rd c)) as [|b0 [|b1 t]] eqn:E; cbn [length] in *; try lia.
    cbn [firstn skipn] in P1, C1.
    assert (P2 : pull s1 2 = (t, Some EOF, [])).
    { rewrite <- C1. apply pull_short; [exact F1|]. rewrite C1. lia. }
    rewrite (nextFrame_fail_second _ _ _ _ _ _ _ P1 P2).
    eexists. split;
      [destruct t as [|b2 [|b3 t']]; cbn [length] in *; try lia; reflexivity
      |split; reflexivity].
  - assert (P1 : pull (rd c) 2 = (content (rd c), Some EOF, []))
      by (apply pull_short; [exact F|lia]).
    rewrite (nextFrame_fail_first _ _ _ _ P1).
    eexists. split;
      [destruct (content (rd c)) as [|b0 [|b1 t]]; cbn [length] in *; try lia;
       reflexivity
      |split; reflexivity].
Qed.

Lemma nextFrame_on_short_stream_witness :
  exists f,
    nextFrame (NewFramed [Data [x03]; Data [x00]] sink) =
      Done (f, Some EOF, NewFramed [] sink) /\
    bytesRemaining (Header f) = 0 /\ bytesRemaining (Body f) = 0.
Proof.
  exact (nextFrame_on_short_stream (NewFramed [Data [x03]; Data [x00]] sink)
           eq_refl ltac:(cbn; lia)).
Defined.

(** ** Writing on a connection that may refuse *)

Lemma writeSeq_prefix : forall ps w e w',
  writeSeq ps w = (e, w') ->
  (exists k, wout w' = wout w ++ firstn k (concat ps)) /\
  (e = None -> wout w' = wout w ++ concat ps) /\
  (forall e0, e = Some e0 -> exists code, e0 = Transport code).
Proof.
  induction ps as [|p ps IH]; intros w e w' H; cbn [writeSeq concat] in H.
  - inversion H; subst. split; [exists 0%nat|split]; cbn;
      rewrite ?app_nil_r; try reflexivity. discriminate.
  - unfold swrite in H.
    destruct (wplan w) as [|[|n code] t] eqn:E.
    + destruct (IH _ _ _ H) as ((k & Hk) & Hn & He). cbn [wout] in *.
      split; [|split].
      * exists (length p + k)%nat. rewrite Hk, <- app_assoc.
        cbn [concat]. rewrite firstn_app_2. reflexivity.
      * intros N. rewrite (Hn N), <- app_assoc. reflexivity.
      * exact He.
    + destruct (IH _ _ _ H) as ((k & Hk) & Hn & He). cbn [wout] in *.
      split; [|split].
      * exists (length p + k)%nat. rewrite Hk, <- app_assoc.
        cbn [concat]. rewrite firstn_app_2. reflexivity.
      * intros N. rewrite (Hn N), <- app_assoc. reflexivity.
      * exact He.
    + inversion H; subst. cbn [wout]. split; [|split].
      * exists (Nat.min n (length p)). cbn [concat].
        rewrite firstn_app.
        replace (Nat.min n (length p) - length p)%nat with 0%nat by lia.
        cbn [firstn]. rewrite app_nil_r. f_equal.
        destruct (le_lt_dec n (length p)).
        -- rewrite Nat.min_l by lia. reflexivity.
        -- rewrite Nat.min_r by lia. rewrite !firstn_all2 by lia. reflexivity.
      * discriminate.
      * intros e0 E0. inversion E0. eauto.
Qed.

Lemma WriteFrame_writeSeq h b c :
  WriteFrame h b c =
  (let '(e, w') := writeSeq [encode16 (len h); encode16 (len b); h; b] (wr c) in
   (e, setWr w' c)).
Proof.
  unfold WriteFrame, WriteHeader, writeHeaderTo, binary_Write16.
  rewrite !encode16_int16. cbn [writeSeq].
  destruct (swrite (encode16 (len h)) (wr c)) as [[n1 [e1|]] w1]; [reflexivity|].
  destruct (swrite (encode16 (len b)) w1) as [[n2 [e2|]] w2]; [reflexivity|].
  cbn [wr setWr].
  destruct (swrite h w2) as [[n3 [e3|]] w3]; [reflexivity|].
  destruct (swrite b w3) as [[n4 [e4|]] w4]; reflexivity.
Qed.

(** X11.  Whatever the connection does with the writes, [WriteFrame]
    leaves on it a prefix of the frame's bytes, the whole of them when
    it returns nil, possibly a part of a frame when it returns an error
    (nothing is taken back); the error is the connection's own; and the
    reading side and the flag of the session are not touched. *)
Theorem WriteFrame_leaves_a_prefix (h b : list byte) (c c' : Framed)
        (e : option error) :
  WriteFrame h b c = (e, c') ->
  rd c' = rd c /\ hasReadInitial c' = hasReadInitial c /\
  (exists k, wout (wr c') = wout (wr c) ++ firstn k (frameBytes h b)) /\
  (e = None -> wout (wr c') = wout (wr c) ++ frameBytes h b) /\
  (forall e0, e = Some e0 -> exists code, e0 = Transport code).
Proof.
  rewrite WriteFrame_writeSeq.
  destruct (writeSeq _ (wr c)) as [e1 w1] eqn:W.
  intros H. inversion H; subst. cbn [rd wr hasReadInitial setWr].
  destruct (writeSeq_prefix _ _ _ _ W) as (Hk & Hn & He).
  cbn [concat] in Hk, Hn. rewrite app_nil_r in Hk, Hn.
  repeat split; assumption.
Qed.

Lemma WriteFrame_leaves_a_prefix_witness :
  WriteFrame [x61; x62] [x63]
             (mkFramed [] (mkW [] [Accept; Accept; Reject 1 7]) false) =
    (Some (Transport 7), mkFramed [] (mkW [x02; x00; x01; x00; x61] []) false) /\
  (exists k, [x02; x00; x01; x00; x61] = [] ++ firstn k (frameBytes [x61; x62] [x63])) /\
  (forall e0, Some (Transport 7) = Some e0 -> exists code, e0 = Transport code).
Proof.
  split; [reflexivity|].
  destruct (WriteFrame_leaves_a_prefix [x61; x62] [x63]
              (mkFramed [] (mkW [] [Accept; Accept; Reject 1 7]) false)
              (mkFramed [] (mkW [x02; x00; x01; x00; x61] []) false)
              (Some (Transport 7)) eq_refl) as (_ & _ & K & _ & E).
  split; [exact K|exact E].
Defined.

(** ** The single-section framing, written and read back *)

Lemma MaxFrameLength_value : MaxFrameLength = 65535.
Proof. reflexivity. Qed.

Lemma single_prefix_decodes s v rest :
  0 <= v <= 65535 ->
  faultless s = true -> content s = encode16 v ++ rest ->
  exists s1,
    uint16Read s = Done (Some v, None, s1) /\
    faultless s1 = true /\ content s1 = rest /\ (length s1 <= length s)%nat.
Proof.
  intros Hv F C. rewrite encode16_bytes in C. cbn [app] in C.
  destruct (pull_content s 2 F ltac:(rewrite C; cbn [length]; lia))
    as (s1 & P1 & F1 & C1).
  rewrite C in P1, C1. cbn [firstn skipn] in P1, C1.
  destruct (pull_spec _ _ _ _ _ P1) as (_ & L1 & _).
  exists s1. unfold uint16Read. rewrite (binary_Read16_ok _ _ _ _ _ P1).
  pose proof (Uint16_PutUint16 (uint16 v)) as U. unfold PutUint16 in U.
  rewrite U. unfold uint16. rewrite !Z.mod_mod, Z.mod_small by lia. auto.
Qed.

Lemma Writer_Write_accepted frame g out :
  len frame <= MaxFrameLength ->
  Writer_Write frame g (mkW out []) =
  (0, None,
   (mkGlobals (len frame) None (innerframe g),
    mkW (out ++ singleBytes frame) [])).
Proof.
  intros H. unfold Writer_Write. cbn [innern].
  destruct (len frame >? MaxFrameLength) eqn:E; [lia|].
  unfold binary_Write16, swrite. cbn [wplan wout innern innerframe].
  rewrite Z.eqb_refl. cbn [negb]. unfold singleBytes, encode16, uint16.
  rewrite Z.mod_mod by lia. rewrite <- app_assoc. reflexivity.
Qed.

(** X12.  A frame of at most 65535 bytes written by [Writer.Write], then
    read by [Reader.Read] with a buffer that can hold it, from a
    faultless connection that delivers the written bytes in whatever
    chunks: the buffer receives exactly the frame and the connection is
    left at the byte after it.  Both calls return the count 0 and a nil
    error: the count and the errors go to [innern] and [innererr]. *)
Theorem Write_Read_roundtrip (frame rest out : list byte) (k : nat)
        (g g0 : Globals) (s : rstream) :
  len frame <= MaxFrameLength -> len frame <= Z.of_nat k ->
  faultless s = true -> content s = singleBytes frame ++ rest ->
  (exists g1,
     Writer_Write frame g (mkW out []) =
     (0, None, (g1, mkW (out ++ singleBytes frame) []))) /\
  exists g' s',
    Reader_Read k g0 s = Done (0, None, frame, (g', s')) /\
    content s' = rest /\ innern g' = len frame /\ innererr g' = None.
Proof.
  intros Hm Hk F C. split.
  - eexists. apply Writer_Write_accepted. exact Hm.
  - pose proof (len_nonneg frame) as H0. rewrite MaxFrameLength_value in Hm.
    unfold singleBytes in C. rewrite <- app_assoc in C.
    destruct (single_prefix_decodes s (len frame) _ ltac:(lia) F C)
      as (s1 & R & F1 & C1 & L1).
    destruct (pull_front s1 frame rest F1 C1) as (s2 & P2 & F2 & C2 & L2).
    unfold Reader_Read. rewrite R. cbn [bind innern].
    destruct (len frame >? Z.of_nat k) eqn:E; [lia|].
    rewrite ReadFull_pull, len_length, P2. cbn [bind fullError].
    eexists _, _. split; [reflexivity|]. cbn [innern innererr]. auto.
Qed.

Lemma Write_Read_roundtrip_witness :
  (exists g1,
     Writer_Write [x61; x62] (mkGlobals 0 None []) (mkW [] []) =
     (0, None, (g1, mkW ([] ++ singleBytes [x61; x62]) []))) /\
  exists g' s',
    Reader_Read 5 (mkGlobals 0 None []) [Data [x02]; Data [x00; x61; x62; x63]] =
      Done (0, None, [x61; x62], (g', s')) /\
    content s' = [x63] /\ innern g' = 2 /\ innererr g' = None.
Proof.
  exact (Write_Read_roundtrip [x61; x62] [x63] [] 5 (mkGlobals 0 None [])
           (mkGlobals 0 None []) [Data [x02]; Data [x00; x61; x62; x63]]
           ltac:(vm_compute; discriminate) ltac:(vm_compute; discriminate)
           eq_refl eq_refl).
Defined.

(** X13.  The same frame read by [Reader.ReadFrame]: the frame is
    stored in [innerframe], the connection is left at the byte after
    it, and the call returns a nil slice and a nil error. *)
Theorem Write_ReadFrame_roundtrip (frame rest : list byte) (g0 : Globals)
        (s : rstream) :
  len frame <= MaxFrameLength ->
  faultless s = true -> content s = singleBytes frame ++ rest ->
  exists g' s',
    Reader_ReadFrame g0 s = Done ([], None, (g', s')) /\
    innerframe g' = frame /\ innererr g' = None /\ content s' = rest.
Proof.
  intros Hm F C.
  pose proof (len_nonneg frame) as H0. rewrite MaxFrameLength_value in Hm.
  unfold singleBytes in C. rewrite <- app_assoc in C.
  destruct (single_prefix_decodes s (len frame) _ ltac:(lia) F C)
    as (s1 & R & F1 & C1 & L1).
  destruct (pull_front s1 frame rest F1 C1) as (s2 & P2 & F2 & C2 & L2).
  unfold Reader_ReadFrame. rewrite R. cbn [bind].
  rewrite ReadFull_pull, len_length, P2. cbn [bind fullError].
  eexists _, _. split; [reflexivity|]. cbn [innerframe innererr].
  rewrite Nat.sub_diag. cbn [repeat]. rewrite app_nil_r. auto.
Qed.

Lemma Write_ReadFrame_roundtrip_witness :
  exists g' s',
    Reader_ReadFrame (mkGlobals 0 None []) [Data [x02; x00; x61]; Data [x62; x63]] =
      Done ([], None, (g', s')) /\
    innerframe g' = [x61; x62] /\ innererr g' = None /\ content s' = [x63].
Proof.
  exact (Write_ReadFrame_roundtrip [x61; x62] [x63] (mkGlobals 0 None [])
           [Data [x02; x00; x61]; Data [x62; x63]]
           ltac:(vm_compute; discriminate) eq_refl eq_refl).
Defined.


(** X15.  [Writer.Write] returns the count 0 always.  For a frame of at
    most [MaxFrameLength] bytes it returns a nil error whatever the
    connection does with the writes (a refused write is stored in
    [innererr], not reported).  For a longer frame it returns the
    too-long error and the connection is untouched: no write was
    attempted. *)
Theorem Writer_Write_reports_only_oversize (frame : list byte) (g : Globals)
        (w : wstream) :
  exists e g' w',
    Writer_Write frame g w = (0, e, (g', w')) /\
    ((len frame <= MaxFrameLength /\ e = None) \/
     (MaxFrameLength < len frame /\
      e = Some (Errorf tooLongError [0; MaxFrameLength]) /\ w' = w)).
Proof.
  unfold Writer_Write. cbn [innern].
  destruct (len frame >? MaxFrameLength) eqn:E.
  - eexists _, _, _. split; [reflexivity|]. right. repeat split. lia.
  - assert (L : len frame <= MaxFrameLength)
      by (rewrite Z.gtb_ltb in E; apply Z.ltb_ge in E; exact E).
    destruct (binary_Write16 _ w) as [[e1|] w1].
    + eexists _, _, _. split; [reflexivity|]. left. auto.
    + destruct (swrite frame w1) as [[n [e2|]] w2].
      * eexists _, _, _. split; [reflexivity|]. left. auto.
      * cbn [innern].
        destruct (negb (n =? len frame));
          (eexists _, _, _; split; [reflexivity|]; left; auto).
Qed.

Lemma writeAll_writeSeq : forall pieces written w,
  snd (writeAll pieces written w) = snd (writeSeq pieces w) /\
  snd (fst (writeAll pieces written w)) = fst (writeSeq pieces w).
Proof.
  induction pieces as [|p ps IH]; intros written w; cbn [writeAll writeSeq].
  - split; reflexivity.
  - destruct (swrite p w) as [[n [e|]] w1]; [split; reflexivity|]. apply IH.
Qed.

(** X16.  [Writer.WritePieces] returns the count 0 and a nil error
    whatever the pieces and whatever the connection does with the
    writes.  What it leaves on the connection is a prefix of the two
    bytes 0, 0 followed by the pieces in order: the writes are made one
    after the other and stop at the first one refused. *)
Theorem WritePieces_always_returns_nil (pieces : list (list byte))
        (g : Globals) (w : wstream) :
  exists g' w',
    Writer_WritePieces pieces g w = (0, None, (g', w')) /\
    exists k, wout w' = wout w ++ firstn k ([x00; x00] ++ concat pieces).
Proof.
  assert (S : exists g', Writer_WritePieces pieces g w =
                         (0, None, (g', snd (writeSeq ([x00; x00] :: pieces) w)))).
  { unfold Writer_WritePieces.
    change (0 >? MaxFrameLength) with false. cbv iota.
    unfold binary_Write16. change (encode16 (uint16 0)) with [x00; x00].
    cbn [writeSeq].
    destruct (swrite [x00; x00] w) as [[n [e|]] w1]; [eexists; reflexivity|].
    destruct (writeAll_writeSeq pieces 0 w1) as [A B].
    destruct (writeAll pieces 0 w1) as [[wr e2] w2]. cbn [fst snd] in A, B.
    rewrite <- A.
    destruct wr as [wr|]; [|eexists; reflexivity].
    destruct (negb (wr =? 0)); eexists; reflexivity. }
  destruct S as [g' S]. exists g'. eexists. split; [exact S|].
  destruct (writeSeq ([x00; x00] :: pieces) w) as [e w'] eqn:W.
  destruct (writeSeq_prefix _ _ _ _ W) as (K & _). exact K.
Qed.

(** ** Several frames in a row *)

Lemma NextFrame_at_stream_end (f : Frame) (c : Framed) (hbytes bbytes : list byte) :
  len hbytes = bytesRemaining (Header f) ->
  len bbytes = bytesRemaining (Body f) ->
  faultless (rd c) = true -> content (rd c) = hbytes ++ bbytes ->
  exists nf st', NextFrame (f, c) = Done (Some nf, Some EOF, st').
Proof.
  intros Hh Hb F C.
  pose proof (len_nonneg hbytes). pose proof (len_nonneg bbytes).
  destruct (drainSpec_front SHeader f c hbytes _ ltac:(cbn [getSec]; lia) Hh F C)
    as (f1 & s1 & D1 & R1 & O1 & F1 & C1 & L1).
  cbn [getSec other] in R1, O1.
  rewrite <- (app_nil_r bbytes) in C1.
  destruct (drainSpec_front SBody f1 (setRd s1 c) bbytes _
              ltac:(cbn [getSec]; rewrite O1; lia)
              ltac:(cbn [getSec]; rewrite O1; exact Hb) F1 C1)
    as (f2 & s2 & D2 & R2 & O2 & F2 & C2 & L2).
  rewrite setRd_setRd in D2.
  assert (P : pull (rd (setRd s2 c)) 2 = ([], Some EOF, [])).
  { cbn [rd setRd]. rewrite <- C2. apply pull_short; [exact F2|].
    rewrite C2. cbn. lia. }
  rewrite NextFrame_closed, D1, D2. cbn [fst snd].
  rewrite (nextFrame_fail_first _ _ _ _ P). cbn [bind fullError]. eauto.
Qed.

Lemma writeFrames_bytes : forall fs r out fl,
  writeFrames fs (mkFramed r (mkW out []) fl) =
  mkFramed r (mkW (out ++ framesBytes fs) []) fl.
Proof.
  induction fs as [|[h b] fs IH]; intros r out fl;
    cbn [writeFrames fold_left framesBytes flat_map fst snd].
  - rewrite app_nil_r. reflexivity.
  - rewrite frameBytes_written. cbn [snd].
    fold (writeFrames fs (mkFramed r (mkW (out ++ frameBytes h b) []) fl)).
    rewrite IH, <- app_assoc. reflexivity.
Qed.

(** X17.  Frames written one after the other, each section of at most
    32767 bytes, empty ones allowed: a reader that starts from a frame
    with any part of it still unread and only advances gets, one
    [NextFrame] after the other, frames carrying the lengths of the
    frames written, in the order written; the advance after the last
    frame returns [io.EOF]. *)
Theorem frames_come_in_order : forall (fs : list (list byte * list byte))
        (f : Frame) (c : Framed) (hbytes bbytes : list byte),
  Forall fitsInt16 fs ->
  len hbytes = bytesRemaining (Header f) ->
  len bbytes = bytesRemaining (Body f) ->
  faultless (rd c) = true ->
  content (rd c) = hbytes ++ bbytes ++ wout (wr (writeFrames fs (NewFramed [] sink))) ->
  exists st',
    advance (S (length fs)) (f, c) = Done (map lengthsOf fs, Some EOF, st').
Proof.
  intros fs f c hbytes bbytes Hfit Hh Hb F C.
  unfold NewFramed, sink in C. rewrite writeFrames_bytes in C.
  cbn [wr wout app] in C.
  revert f c hbytes bbytes Hfit Hh Hb F C.
  induction fs as [|[h b] fs IH]; intros f c hbytes bbytes Hfit Hh Hb F C.
  - cbn [framesBytes flat_map] in C. rewrite app_nil_r in C.
    destruct (NextFrame_at_stream_end f c hbytes bbytes Hh Hb F C)
      as (nf & st' & N).
    cbn [advance length map]. rewrite N. cbn [bind]. eauto.
  - inversion Hfit as [|x l [Fh Fb] Hfit']; subst. cbn [fst snd] in Fh, Fb.
    cbn [framesBytes flat_map fst snd] in C. unfold frameBytes in C.
    rewrite <- !app_assoc in C.
    destruct (NextFrame_skip f c hbytes bbytes _ _ _ Hh Hb F C)
      as (f1 & c1 & N & _ & _ & F1 & C1).
    pose proof (len_nonneg h). pose proof (len_nonneg b).
    rewrite !int16_small in N by lia.
    destruct (IH (freshFrame (len h) (len b)) c1 h b Hfit'
                 eq_refl eq_refl F1 C1) as (st' & A).
    change (advance (S (length ((h, b) :: fs))) (f, c))
      with (do (nf, e, st0) <- NextFrame (f, c);
            match nf, e with
            | Some f', None =>
                do (ls, e', st'') <- advance (S (length fs)) (f', snd st0);
                Done ((headerLength f', bodyLength f') :: ls, e', st'')
            | _, _ => Done ([], e, st0)
            end).
    rewrite N. cbn [bind snd]. rewrite A. cbn [bind map]. eauto.
Qed.

Lemma frames_come_in_order_witness :
  exists st',
    advance 3 (freshFrame 1 0,
               NewFramed [Data [x61; x00; x00; x01]; Data [x00; x62; x02; x00];
                          Data [x00; x00; x63; x64]] sink) =
    Done ([(0, 1); (2, 0)], Some EOF, st').
Proof.
  exact (frames_come_in_order [([], [x62]); ([x63; x64], [])]
           (freshFrame 1 0)
           (NewFramed [Data [x61; x00; x00; x01]; Data [x00; x62; x02; x00];
                       Data [x00; x00; x63; x64]] sink)
           [x61] []
           ltac:(repeat constructor; vm_compute; discriminate)
           eq_refl eq_refl eq_refl eq_refl).
Defined.

Lemma sread_keeps_content k s bs e s' :
  faultless s = true -> sread k s = (bs, e, s') ->
  content s = bs ++ content s' /\ faultless s' = true.
Proof.
  destruct s as [|[cs|c|cs c] s0]; cbn [sread faultless content]; intros F H.
  - inversion H; subst. auto.
  - destruct (length cs <=? k)%nat; inversion H; subst; cbn [content faultless].
    + auto.
    + rewrite app_assoc, firstn_skipn. auto.
  - discriminate.
  - discriminate.
Qed.

(** X18.  A [Read] on the header section, with bytes left to give and a
    faultless connection, takes from the connection exactly the bytes it
    returns: nothing of the body or of a later frame is taken or read
    ahead, and the bytes come in the order of the stream. *)
Theorem header_Read_takes_what_it_returns (p : nat) (f f' : Frame)
        (c c' : Framed) (bs : list byte) (e : option error) :
  0 < bytesRemaining (Header f) -> faultless (rd c) = true ->
  Read SHeader p (f, c) = Done (bs, e, (f', c')) ->
  content (rd c) = bs ++ content (rd c') /\ faultless (rd c') = true /\
  len bs <= bytesRemaining (Header f) /\
  Body f' = Body f /\ wr c' = wr c.
Proof.
  intros H0 F R. unfold Read in R.
  rewrite readSection_plain in R by exact H0. cbv zeta in R. cbn [getSec] in R.
  set (r := bytesRemaining (Header f)) in *.
  set (k := if Z.of_nat p >? r then Z.to_nat r else p) in *.
  assert (Hk : Z.of_nat k <= r).
  { subst k. destruct (Z.of_nat p >? r) eqn:G; [lia|].
    rewrite Z.gtb_ltb in G. apply Z.ltb_ge in G. lia. }
  destruct (sread k (rd c)) as [[bs0 e0] s0] eqn:S.
  pose proof (sread_length _ _ _ _ _ S) as L.
  destruct (sread_keeps_content _ _ _ _ _ F S) as [C F'].
  inversion R; subst. cbn [rd setRd wr setSec Body].
  repeat split; try assumption. unfold len. lia.
Qed.

Lemma header_Read_takes_what_it_returns_witness :
  content (rd (NewFramed [Data [x47; x45; x54; x2f]] sink)) =
    [x47; x45] ++ content (rd (NewFramed [Data [x54; x2f]] sink)) /\
  faultless (rd (NewFramed [Data [x54; x2f]] sink)) = true /\
  len [x47; x45] <= bytesRemaining (Header (freshFrame 3 1)) /\
  Body (mkFrame (mkSection 1 true) (mkSection 1 false) 3 1) = Body (freshFrame 3 1) /\
  wr (NewFramed [Data [x54; x2f]] sink) = wr (NewFramed [Data [x47; x45; x54; x2f]] sink).
Proof.
  exact (header_Read_takes_what_it_returns 2 (freshFrame 3 1)
           (mkFrame (mkSection 1 true) (mkSection 1 false) 3 1)
           (NewFramed [Data [x47; x45; x54; x2f]] sink)
           (NewFramed [Data [x54; x2f]] sink) [x47; x45] None
           ltac:(cbn; lia) eq_refl eq_refl).
Defined.
